(** * RabbitMash [pairwise]: the all-vs-all sketch similarity join

    A shallow embedding of [src/mash/CommandPairwise.cpp]: the round
    partitioner of [CommandPairwise::run], the inverted index built by
    [fillHashTable], the candidate search of [search], the bounded merge
    and distance of [compareSketches], and the table writer
    [CommandPairwise::writeOutput].

    Conventions.  A [uint64_t] is a [Z] in [0, 2^64) and every arithmetic
    result is reduced with [wrap64]; an [int] is a [Z] in [-2^31, 2^31) and
    the narrowing conversion is [to_int].  A [double] is a binary64
    primitive float.  A [std::vector] is a [list], [size()] is its length,
    [at(i)] is a lookup that may fail.  The [HashTable] is a finite map
    from [uint64_t] keys to index lists; the [std::set] of targets is a
    strictly ascending list, which is the order its iterator yields. *)

From Stdlib Require Import ZArith Lia Bool List Sorted Floats String.
From stdpp Require Import base option list sorting gmap.

Local Open Scope Z_scope.

(** ** Machine integers *)

Module Machine.

Definition two64 : Z := 2 ^ 64.
Definition two32 : Z := 2 ^ 32.
Definition two31 : Z := 2 ^ 31.

(** Arithmetic on [uint64_t] is modulo 2^64. *)
Definition wrap64 (z : Z) : Z := z mod two64.

(** Conversion of an integer value to [int] (two's complement, 32 bits). *)
Definition to_int (z : Z) : Z :=
  let m := z mod two32 in
  if m <? two31 then m else m - two32.

(** Conversion of an [int] to [uint64_t] (usual arithmetic conversions). *)
Definition of_int (z : Z) : Z := wrap64 z.

End Machine.

Import Machine.

(** ** Failure of a computation

    [std::vector::at] and [std::unordered_map::at] throw
    [std::out_of_range]; an integer division by zero kills the process;
    loops are run on fuel.  [result] records which of these stopped a
    computation. *)

Inductive result (A : Type) : Type :=
  | Ok (a : A)
  | OutOfRange
  | OutOfFuel
  | Trap.

Arguments Ok {A} a.
Arguments OutOfRange {A}.
Arguments OutOfFuel {A}.
Arguments Trap {A}.

Definition bind {A B : Type} (m : result A) (k : A -> result B) : result B :=
  match m with
  | Ok a => k a
  | OutOfRange => OutOfRange
  | OutOfFuel => OutOfFuel
  | Trap => Trap
  end.

Notation "'do' x <~ m 'in' k" := (bind m (fun x => k))
  (at level 10, x name, m at level 100, k at level 200).

(** ** The round partitioner of [CommandPairwise::run] (lines 177-196) *)

Module Rounds.

(** [uint64_t hashTableSize = 1 << 25;] : an [int] shift, then widened. *)
Definition hashTableSize : Z := of_int (to_int (Z.shiftl 1 25)).

(** [int rounds = count * minHashesPerWindow / hashTableSize / 2;]
    [if ( rounds == 0 ) rounds = 1;]
    The product and both quotients are [uint64_t]; the initialisation
    narrows to [int].  [B] is the slot budget, [R] the reference count and
    [S] the sketch capacity. *)
Definition roundCount (B R S : Z) : Z :=
  let rounds := to_int (wrap64 (R * S) / B / 2) in
  if rounds =? 0 then 1 else rounds.

(** [uint64_t roundSize = count / rounds;] : [rounds] is widened first. *)
Definition roundSize (B R S : Z) : Z := R / of_int (roundCount B R S).

(** Body of the round loop: [start = i * roundSize],
    [end = (i + 1) * roundSize], then [if ( end > count ) end = count]. *)
Definition roundRange (R rsize i : Z) : Z * Z :=
  let start := wrap64 (of_int i * rsize) in
  let end_ := wrap64 (of_int (to_int (i + 1)) * rsize) in
  (start, if R <? end_ then R else end_).

(** [for ( int i = 0; i < rounds; i++ )] : the ranges in loop order. *)
Definition roundRanges (B R S : Z) : list (Z * Z) :=
  map (roundRange R (roundSize B R S)) (seqZ 0 (roundCount B R S)).

(** Index [x] lies in the half-open range [rg]. *)
Definition inRange (x : Z) (rg : Z * Z) : bool :=
  (fst rg <=? x) && (x <? snd rg).

(** Index [x] lies in some round range. *)
Definition covered (B R S x : Z) : bool :=
  existsb (inRange x) (roundRanges B R S).

(** The queries submitted while round range [rg] is processed:
    [for ( uint64_t j = 1; j < end; j++ )], one work item per [j]. *)
Definition roundQueries (rg : Z * Z) : list Z := seqZ 1 (snd rg - 1).

(** All work items of a run, in submission order. *)
Definition submitted (B R S : Z) : list Z :=
  flat_map roundQueries (roundRanges B R S).

(** The round count written in the specification. *)
Definition specRounds (B R S : Z) : Z := Z.max 1 (R * S / B / 2).

End Rounds.

Import Rounds.


(** ** Sketches as the join engine consumes them *)

Module Sketches.

(** Modelled from the spec: the sketch library ([Sketch.h], [hash.h]) is
    not among the sources at hand.  The specification describes "an
    ordered collection of sketches, each an ascending-sorted list of hash
    values plus sequence length and name", exposing "count, per-index
    accessor, k-mer size, sketch capacity, hash-width flag" and "an
    equality/ordering comparator for hash values that is aware of the
    hash-width flag".  The names are those the join engine uses.  A hash
    carries a 32-bit and a 64-bit view; the comparator compares the view
    the flag selects. *)
Record hash_u : Type := { hash32 : Z; hash64 : Z }.

Definition hashLessThan (h1 h2 : hash_u) (use64 : bool) : bool :=
  if use64 then hash64 h1 <? hash64 h2 else hash32 h1 <? hash32 h2.

(** [use64 ? h.hash64 : h.hash32], the key used by the hash table. *)
Definition hashKey (use64 : bool) (h : hash_u) : Z :=
  if use64 then hash64 h else hash32 h.

(** [HashList]: the hash vector with its width flag ([get64()]). *)
Record HashList : Type := { get64 : bool; hashes : list hash_u }.

(** [Sketch::Reference]: name, sequence length, sorted hashes. *)
Record Reference : Type :=
  { ref_name : string; ref_length : Z; hashesSorted : HashList }.

(** The part of [Sketch] that the join reads. *)
Record Sketch : Type :=
  { references : list Reference;
    minHashesPerWindow : Z;
    kmerSize : Z;
    kmerSpace : float;
    use64 : bool }.

(** [vector::size()]. *)
Definition size {A : Type} (l : list A) : Z := Z.of_nat (List.length l).

(** [vector::at(i)] for a [uint64_t] index. *)
Definition at_ {A : Type} (l : list A) (i : Z) : result A :=
  if i <? 0 then OutOfRange
  else match l !! Z.to_nat i with
       | Some x => Ok x
       | None => OutOfRange
       end.

Definition getReferenceCount (sk : Sketch) : Z := size (references sk).

(** [sketch.getReference(i)], the per-index accessor, as the checked
    access [references.at(i)]. *)
Definition getReference (sk : Sketch) (i : Z) : result Reference :=
  at_ (references sk) i.

(** The hash-table keys of reference [i]; empty when [i] is no reference. *)
Definition keysOf (sk : Sketch) (i : Z) : list Z :=
  match getReference sk i with
  | Ok r => map (hashKey (use64 sk)) (hashes (hashesSorted r))
  | _ => []
  end.

End Sketches.

Import Sketches.

(** ** The inverted index: [fillHashTable] (lines 266-329) *)

Module Index.

(** [HashTable] (declared in the header of the command): hash value to
    the list of sketch indices holding it; used through [operator[]],
    [count] and [at]. *)
Abbreviation HashTable := (gmap Z (list Z)).

(** The list the index holds for [h]; no entry reads as the empty list. *)
Definition listFor (t : HashTable) (h : Z) : list Z := default [] (t !! h).

(** [hashTable[k].push_back(i)]: [operator[]] creates a missing entry. *)
Definition push_back_at (k i : Z) (t : HashTable) : HashTable :=
  <[k := listFor t k ++ [i]]> t.

(** The inner loop over [hashesSorted] of one reference. *)
Definition insertHashes (use64 : bool) (i : Z) (hs : list hash_u)
    (t : HashTable) : HashTable :=
  foldl (fun acc h => push_back_at (hashKey use64 h) i acc) t hs.

(** [for ( int i = start; i < end; i++ )]: [i] is an [int], compared with
    the [uint64_t] bound after widening and widened again when used as a
    reference index and when pushed.  The fuel bounds the number of
    passes. *)
Fixpoint fillLoop (fuel : nat) (sk : Sketch) (end_ : Z) (i : Z)
    (t : HashTable) : result HashTable :=
  if of_int i <? end_ then
    match fuel with
    | O => OutOfFuel
    | S fuel' =>
        do r <~ getReference sk (of_int i) in
        fillLoop fuel' sk end_ (to_int (i + 1))
          (insertHashes (use64 sk) (of_int i) (hashes (hashesSorted r)) t)
    end
  else Ok t.

(** The loop over the slots (lines 294-313) reads [hashTable[i].size()] for
    every slot [i < hashTableSize]; [operator[]] leaves an empty list
    behind in every slot that had no entry. *)
Definition touch (t : HashTable) (k : Z) : HashTable :=
  match t !! k with
  | Some _ => t
  | None => <[k := []]> t
  end.

Definition occupancyPass (hashTableSize : Z) (t : HashTable) : HashTable :=
  foldl touch t (seqZ 0 hashTableSize).

(** What the same loop accumulates: [mean] (still the sum), [min], [max]
    and [empty]. *)
Record SlotStats : Type :=
  { s_sum : float; s_min : Z; s_max : Z; s_empty : Z }.

(** [uint64_t min;] has no value before the pass over slot 0 assigns it. *)
Definition statsInit : SlotStats :=
  {| s_sum := 0%float; s_min := 0; s_max := 0; s_empty := 0 |}.

(** Conversion of an integer to [double], rounding to nearest even. *)
Definition int_to_double (z : Z) : float :=
  SF2Prim (binary_normalize prec emax z 0 false).

(** One pass over slot [i]: [int size = hashTable[i].size()];
    [mean += size] converts it to [double], the comparisons with the
    [uint64_t] [min] and [max] widen it. *)
Definition statsStep (t : HashTable) (st : SlotStats) (i : Z) : SlotStats :=
  let size_ := to_int (Z.of_nat (List.length (listFor t i))) in
  {| s_sum := (s_sum st + int_to_double size_)%float;
     s_min := if (i =? 0) || (of_int size_ <? s_min st)
              then of_int size_ else s_min st;
     s_max := if s_max st <? of_int size_ then of_int size_ else s_max st;
     s_empty := if size_ =? 0 then wrap64 (s_empty st + 1) else s_empty st |}.

Definition slotStats (hashTableSize : Z) (t : HashTable) : SlotStats :=
  foldl (statsStep t) statsInit (seqZ 0 hashTableSize).

(** The line written to the log (line 326): the mean after
    [mean /= hashTableSize], [min], [max] and
    [int(100 * empty / hashTableSize)].  The last is a [uint64_t]
    division: with [hashTableSize] zero the process is killed.  The
    deviation is left out: it is summed in the iteration order of the
    table, which the container does not fix, and is written nowhere
    else. *)
Record TableLog : Type :=
  { log_mean : float; log_min : Z; log_max : Z; log_emptyPercent : Z }.

Definition tableLog (hashTableSize : Z) (t : HashTable) : result TableLog :=
  let st := slotStats hashTableSize t in
  if hashTableSize =? 0 then Trap
  else Ok {| log_mean := (s_sum st / int_to_double hashTableSize)%float;
             log_min := s_min st;
             log_max := s_max st;
             log_emptyPercent :=
               to_int (wrap64 (100 * s_empty st) / hashTableSize) |}.

(** The passes the counter [int i = start] makes at most before
    [i < end] fails: the distance from the widened counter to [end]. *)
Definition fillFuel (start end_ : Z) : nat :=
  Z.to_nat (end_ - of_int (to_int start)).

Definition fillHashTable (sk : Sketch) (t : HashTable) (hashTableSize : Z)
    (start end_ : Z) : result HashTable :=
  do t1 <~ fillLoop (fillFuel start end_) sk end_ (to_int start) t in
  do line <~ tableLog hashTableSize t1 in
  Ok (occupancyPass hashTableSize t1).

(** What the scan of reference [i] appends to the list of [h]: one copy of
    [i] per occurrence of [h] among the keys of [i]. *)
Definition entries (sk : Sketch) (h i : Z) : list Z :=
  (fun _ => i) <$> filter (fun k => k = h) (keysOf sk i).

End Index.

Import Index.

(** ** The pair estimator: [compareSketches] (lines 388-467) *)

Module PairOutput.

(** [PairwiseOutput::PairOutput], with the fields the code writes and
    reads. *)
Record t : Type :=
  { numer : Z; denom : Z; distance : float; pValue : float; index : Z }.

Definition set_index (p : t) (i : Z) : t :=
  {| numer := numer p; denom := denom p; distance := distance p;
     pValue := pValue p; index := i |}.

(** A [PairOutput pair;] that nothing has written to yet. *)
Definition indeterminate : t :=
  {| numer := 0; denom := 0; distance := 0%float; pValue := 0%float;
     index := 0 |}.

End PairOutput.

(** The two library routines the estimator calls: [log] of [<math.h>] and
    [pValue] of the distance command.  Neither is part of the sources at
    hand; the estimator is modelled over any pair of such routines. *)
Class Externals : Type :=
  { log : float -> float;
    pValue : Z -> Z -> Z -> float -> Z -> float }.

Module Compare.

(** Conversion of an integer to [double], rounding to nearest even. *)
Definition to_double (z : Z) : float :=
  SF2Prim (binary_normalize prec emax z 0 false).

(** The four loop variables [i], [j], [common], [denom]. *)
Record MergeState : Type :=
  { m_i : Z; m_j : Z; m_common : Z; m_denom : Z }.

Definition mergeInit : MergeState :=
  {| m_i := 0; m_j := 0; m_common := 0; m_denom := 0 |}.

(** [denom < sketchSize && i < ref.size() && j < qry.size()]. *)
Definition mergeCond (sketchSize : Z) (r q : list hash_u)
    (st : MergeState) : bool :=
  (m_denom st <? sketchSize) && (m_i st <? size r) && (m_j st <? size q).

(** One pass through the loop body; the comparator is given
    [hashesSortedRef.get64()]. *)
Definition mergeStep (w64 : bool) (r q : list hash_u) (st : MergeState)
    : result MergeState :=
  do a <~ at_ r (m_i st) in
  do b <~ at_ q (m_j st) in
  let st' :=
    if hashLessThan a b w64 then
      {| m_i := wrap64 (m_i st + 1); m_j := m_j st;
         m_common := m_common st; m_denom := m_denom st |}
    else if hashLessThan b a w64 then
      {| m_i := m_i st; m_j := wrap64 (m_j st + 1);
         m_common := m_common st; m_denom := m_denom st |}
    else
      {| m_i := wrap64 (m_i st + 1); m_j := wrap64 (m_j st + 1);
         m_common := wrap64 (m_common st + 1); m_denom := m_denom st |} in
  Ok {| m_i := m_i st'; m_j := m_j st'; m_common := m_common st';
        m_denom := wrap64 (m_denom st' + 1) |}.

Fixpoint mergeLoop (fuel : nat) (w64 : bool) (sketchSize : Z)
    (r q : list hash_u) (st : MergeState) : result MergeState :=
  if mergeCond sketchSize r q st then
    match fuel with
    | O => OutOfFuel
    | S fuel' =>
        do st' <~ mergeStep w64 r q st in
        mergeLoop fuel' w64 sketchSize r q st'
    end
  else Ok st.

(** The loop invariant: cursors inside the vectors, and
    [common <= denom <= min(sketchSize, i + j)]. *)
Definition mergeInv (sketchSize : Z) (r q : list hash_u)
    (st : MergeState) : Prop :=
  0 <= m_i st <= size r /\ 0 <= m_j st <= size q /\
  0 <= m_common st <= m_denom st /\
  m_denom st <= m_i st + m_j st /\ m_denom st <= sketchSize.

(** "complete the union operation if possible": the value of [denom]
    after the block guarded by [denom < sketchSize]. *)
Definition completeUnion (sketchSize : Z) (r q : list hash_u)
    (st : MergeState) : Z :=
  if m_denom st <? sketchSize then
    let d1 := if m_i st <? size r
              then wrap64 (m_denom st + wrap64 (size r - m_i st))
              else m_denom st in
    let d2 := if m_j st <? size q
              then wrap64 (d1 + wrap64 (size q - m_j st))
              else d1 in
    if sketchSize <? d2 then sketchSize else d2
  else m_denom st.

(** The merge as a whole: the pair [(common, denom)] at line 437. *)
Definition mergeCounts (w64 : bool) (sketchSize : Z) (r q : list hash_u)
    : result (Z * Z) :=
  do st <~ mergeLoop (List.length r + List.length q) w64 sketchSize r q
             mergeInit in
  Ok (m_common st, completeUnion sketchSize r q st).

(** [double jaccard = double(common) / denom;] *)
Definition jaccardOf (common denom : Z) : float :=
  (to_double common / to_double denom)%float.

(** Lines 438-453. The quotient [jaccard] is formed before the branches. *)
Definition distanceOf `{Externals} (common denom kmerSize : Z) : float :=
  let jaccard := jaccardOf common denom in
  if common =? denom then 0%float
  else if common =? 0 then 1%float
  else (- log (2 * jaccard / (1 + jaccard)) / to_double kmerSize)%float.

(** [distance > maxDistance || distance == 1]. *)
Definition distanceRejects (distance maxDistance : float) : bool :=
  (maxDistance <? distance)%float || (distance =? 1)%float.

(** [compareSketches]: the returned flag and the pair record as the call
    leaves it. *)
Definition compareSketches `{Externals} (output : PairOutput.t)
    (refRef refQry : Reference) (sketchSize kmerSize : Z)
    (kmerSpace maxDistance maxPValue : float)
    : result (bool * PairOutput.t) :=
  let hashesSortedRef := hashesSorted refRef in
  let hashesSortedQry := hashesSorted refQry in
  do cd <~ mergeCounts (get64 hashesSortedRef) sketchSize
             (hashes hashesSortedRef) (hashes hashesSortedQry) in
  let common := fst cd in
  let denom := snd cd in
  let distance := distanceOf common denom kmerSize in
  if distanceRejects distance maxDistance then Ok (false, output)
  else
    let p := pValue common (ref_length refRef) (ref_length refQry)
               kmerSpace denom in
    let output' :=
      {| PairOutput.numer := common; PairOutput.denom := denom;
         PairOutput.distance := distance; PairOutput.pValue := p;
         PairOutput.index := PairOutput.index output |} in
    Ok ((p <=? maxPValue)%float, output').

(** The merge in the words of the specification: two cursors over the
    remaining suffixes, [denom] counted on every step, and the virtual
    completion of the union followed by the clamp. *)
Section SpecMerge.
Variables (w64 : bool) (sketchSize : Z).

Definition specFinish (r q : list hash_u) (common denom : Z) : Z * Z :=
  if denom <? sketchSize
  then (common, Z.min sketchSize (denom + size r + size q))
  else (common, denom).

Fixpoint specMerge (r : list hash_u) : list hash_u -> Z -> Z -> Z * Z :=
  fix against (q : list hash_u) (common denom : Z) {struct q} : Z * Z :=
    match r, q with
    | a :: r', b :: q' =>
        if denom <? sketchSize then
          if hashLessThan a b w64 then
            specMerge r' q common (denom + 1)
          else if hashLessThan b a w64 then
            against q' common (denom + 1)
          else specMerge r' q' (common + 1) (denom + 1)
        else (common, denom)
    | _, _ => specFinish r q common denom
    end.
End SpecMerge.

Definition specCounts (w64 : bool) (sketchSize : Z) (r q : list hash_u)
    : Z * Z :=
  specMerge w64 sketchSize r q 0 0.

End Compare.

Import Compare.

(** ** The candidate generator and scorer: [search] (lines 331-386) *)

Module Search.

(** [PairwiseInput]: what a work item carries and [search] reads. *)
Record PairwiseInput : Type :=
  { in_sketch : Sketch;
    in_index : Z;
    in_maxDistance : float;
    in_maxPValue : float;
    in_hashTable : HashTable;
    in_hashTableSize : Z }.

(** [PairwiseOutput]: the query index and its accepted pairs. *)
Record PairwiseOutput : Type :=
  { out_sketch : Sketch; out_index : Z; pairs : list PairOutput.t }.

(** [std::set<uint64_t>::insert] on the ascending sequence of the set. *)
Fixpoint set_insert (x : Z) (s : list Z) : list Z :=
  match s with
  | [] => [x]
  | y :: s' =>
      if x <? y then x :: s
      else if x =? y then s
      else y :: set_insert x s'
  end.

(** The loop over one index list: [if ( index < input->index )]. *)
Definition collectRow (q : Z) (indeces : list Z) (targets : list Z)
    : list Z :=
  foldl (fun tg index => if index <? q then set_insert index tg else tg)
        targets indeces.

(** The loop over the query's hashes: [count(row)] guards [at(row)]. *)
Definition collectTargets (w64 : bool) (t : HashTable) (q : Z)
    (hs : list hash_u) : list Z :=
  foldl (fun tg h =>
           match t !! hashKey w64 h with
           | Some indeces => collectRow q indeces tg
           | None => tg
           end) [] hs.

(** Lines 333-368: the targets of a work item. *)
Definition searchTargets (input : PairwiseInput) : result (list Z) :=
  let sketch := in_sketch input in
  do rq <~ getReference sketch (in_index input) in
  Ok (collectTargets (use64 sketch) (in_hashTable input) (in_index input)
        (hashes (hashesSorted rq))).

(** Lines 370-381: score the targets in the set's iteration order and
    append the accepted ones. *)
Fixpoint scoreTargets `{Externals} (input : PairwiseInput)
    (targets : list Z) (acc : list PairOutput.t)
    : result (list PairOutput.t) :=
  match targets with
  | [] => Ok acc
  | i :: rest =>
      let sketch := in_sketch input in
      do rq <~ getReference sketch (in_index input) in
      do ri <~ getReference sketch i in
      do res <~ compareSketches PairOutput.indeterminate rq ri
                  (minHashesPerWindow sketch) (kmerSize sketch)
                  (kmerSpace sketch) (in_maxDistance input)
                  (in_maxPValue input) in
      scoreTargets input rest
        (if fst res then acc ++ [PairOutput.set_index (snd res) i]
         else acc)
  end.

Definition search `{Externals} (input : PairwiseInput)
    : result PairwiseOutput :=
  do targets <~ searchTargets input in
  do ps <~ scoreTargets input targets [] in
  Ok {| out_sketch := in_sketch input; out_index := in_index input;
        pairs := ps |}.

(** The record [search] appends for target [i], when [compareSketches]
    accepts it against the query: the record of the call with the index
    of the target. *)
Definition acceptedRecord `{Externals} (input : PairwiseInput) (i : Z)
    : option PairOutput.t :=
  let sketch := in_sketch input in
  match getReference sketch (in_index input), getReference sketch i with
  | Ok rq, Ok ri =>
      match compareSketches PairOutput.indeterminate rq ri
              (minHashesPerWindow sketch) (kmerSize sketch)
              (kmerSpace sketch) (in_maxDistance input)
              (in_maxPValue input) with
      | Ok (true, o) => Some (PairOutput.set_index o i)
      | _ => None
      end
  | _, _ => None
  end.

(** Two references share a hash when some key of one is a key of the
    other. *)
Definition sharesHash (sk : Sketch) (i q : Z) : Prop :=
  exists h, h ∈ keysOf sk i /\ h ∈ keysOf sk q.

(** Values the types of the program guarantee: a nonnegative capacity,
    hash vectors that fit in memory, and nonnegative ([uint64_t]) indices
    in the table. *)
Definition wfSketch (sk : Sketch) : Prop :=
  0 <= minHashesPerWindow sk /\
  Forall (fun r => size (hashes (hashesSorted r)) < 2 ^ 62) (references sk).

Definition wfTable (t : HashTable) : Prop :=
  map_Forall (fun _ l => Forall (Z.le 0) l) t.

End Search.

Import Search.

(** ** The writer: the header of [run] and [writeOutput] (lines 152-162,
    227-264) *)

Module Output.

(** What is sent to [cout], item by item. *)
Inductive token : Type :=
  | Str (s : string)
  | Tab
  | Slash
  | Dbl (d : float)
  | U64 (z : Z)
  | Endl.

(** Header of the table (lines 154-161): ["#query"], then
    [for ( int i = 0; i < sketchRef.getReferenceCount(); i++ )] a tab and
    the name of reference [i], then the end of line.  The counter is an
    [int], widened for the comparison and for the access. *)
Fixpoint headerLoop (fuel : nat) (sk : Sketch) (i : Z) (out : list token)
    : result (list token) :=
  if of_int i <? getReferenceCount sk then
    match fuel with
    | O => OutOfFuel
    | S fuel' =>
        do r <~ getReference sk (of_int i) in
        headerLoop fuel' sk (to_int (i + 1))
          (out ++ [Tab; Str (ref_name r)])
    end
  else Ok out.

Definition tableHeader (sk : Sketch) : result (list token) :=
  do cols <~ headerLoop (List.length (references sk)) sk 0 [Str "#query"] in
  Ok (cols ++ [Endl]).

(** One pass of the loop over [output->pairs]; the state is what has been
    written and the column counter [j].  In table mode
    [while ( j < pair->index ) { cout << '\t'; j++; }] writes
    [pair->index - j] tabs when that is positive. *)
Definition writePair (table : bool) (sk : Sketch) (i : Z)
    (st : list token * Z) (pair : PairOutput.t) : result (list token * Z) :=
  let '(out, j) := st in
  if table then
    Ok (out ++ replicate (Z.to_nat (PairOutput.index pair - j)) Tab
            ++ [Tab; Dbl (PairOutput.distance pair)],
        Z.max j (PairOutput.index pair))
  else
    do rq <~ getReference sk i in
    do rp <~ getReference sk (PairOutput.index pair) in
    Ok (out ++ [Str (ref_name rq); Tab; Str (ref_name rp); Tab;
                Dbl (PairOutput.distance pair); Tab;
                Dbl (PairOutput.pValue pair); Tab;
                U64 (PairOutput.numer pair); Slash;
                U64 (PairOutput.denom pair); Endl],
        j).

Fixpoint writePairs (table : bool) (sk : Sketch) (i : Z)
    (st : list token * Z) (ps : list PairOutput.t)
    : result (list token * Z) :=
  match ps with
  | [] => Ok st
  | p :: rest =>
      do st' <~ writePair table sk i st p in
      writePairs table sk i st' rest
  end.

Definition writeOutput (output : PairwiseOutput) (table : bool)
    : result (list token) :=
  let sk := out_sketch output in
  do start <~ (if table
               then do r <~ getReference sk (out_index output) in
                    Ok [Str (ref_name r); Tab]
               else Ok []) in
  do st <~ writePairs table sk (out_index output) (start, 0)
             (pairs output) in
  Ok (fst st ++ (if table then [Endl] else [])).

(** The tab-separated fields of one line. *)
Fixpoint fieldsFrom (cur : list token) (line : list token)
    : list (list token) :=
  match line with
  | [] => [cur]
  | Tab :: rest => cur :: fieldsFrom [] rest
  | Endl :: _ => [cur]
  | x :: rest => fieldsFrom (cur ++ [x]) rest
  end.

Definition fields (line : list token) : list (list token) :=
  fieldsFrom [] line.

(** The row the specification describes for query [q]: its name, then one
    cell per reference index below [q], holding the distance of the
    accepted pair with that index and blank when there is none. *)
Definition specCell (ps : list PairOutput.t) (r : Z) : list token :=
  match List.find (fun p => PairOutput.index p =? r) ps with
  | Some p => [Dbl (PairOutput.distance p)]
  | None => []
  end.

Definition specRowFields (qname : string) (q : Z) (ps : list PairOutput.t)
    : list (list token) :=
  [Str qname] :: map (specCell ps) (seqZ 0 q).

End Output.

Import Output.

(** ** A small collection, used to run the definitions *)

Module Sample.

Definition h (z : Z) : hash_u := {| hash32 := z mod two32; hash64 := z |}.

Definition reference (n : string) (len : Z) (hs : list Z) : Reference :=
  {| ref_name := n; ref_length := len;
     hashesSorted := {| get64 := true; hashes := map h hs |} |}.

(** Three sequences; the first two have the same four hashes. *)
Definition collection : Sketch :=
  {| references := [reference "a" 12 [1; 2; 3; 4];
                    reference "b" 12 [1; 2; 3; 4];
                    reference "c" 12 [3; 5; 6; 7]];
     minHashesPerWindow := 4;
     kmerSize := 9;
     kmerSpace := 512000000000%float;
     use64 := true |}.

(** The same with the first two sequences only. *)
Definition twoRefs : Sketch :=
  {| references := [reference "a" 12 [1; 2; 3; 4];
                    reference "b" 12 [1; 2; 3; 4]];
     minHashesPerWindow := 400;
     kmerSize := 9;
     kmerSpace := 512000000000%float;
     use64 := true |}.

(** As many copies of one sequence as it takes to reach index 2^31. *)
Definition big : Sketch :=
  {| references := replicate (Z.to_nat (2 ^ 31 + 1)) (reference "a" 12 [1]);
     minHashesPerWindow := 4;
     kmerSize := 9;
     kmerSpace := 512000000000%float;
     use64 := true |}.

(** Stand-ins for the two library routines. *)
Definition routines : Externals :=
  {| log := fun x => x; pValue := fun _ _ _ _ _ => 0%float |}.

(** The index of round [0, 2) of [collection], without the empty slots
    of the occupancy pass. *)
Definition table : HashTable :=
  insertHashes true 1 (map h [1; 2; 3; 4])
    (insertHashes true 0 (map h [1; 2; 3; 4]) ∅).

Definition workItem : PairwiseInput :=
  {| in_sketch := collection; in_index := 2;
     in_maxDistance := 1%float; in_maxPValue := 1%float;
     in_hashTable := table; in_hashTableSize := 4 |}.

(** The work item of query 1 of [twoRefs] over table [t]. *)
Definition workItem1 (t : HashTable) : PairwiseInput :=
  {| in_sketch := twoRefs; in_index := 1;
     in_maxDistance := 1%float; in_maxPValue := 1%float;
     in_hashTable := t; in_hashTableSize := 4 |}.

(** What [search] hands to the writer for that query: the two sequences
    have the same hashes, the pair is accepted at distance 0. *)
Definition accepted : PairOutput.t :=
  {| PairOutput.numer := 4; PairOutput.denom := 4;
     PairOutput.distance := 0%float; PairOutput.pValue := 0%float;
     PairOutput.index := 0 |}.

Definition result1 : PairwiseOutput :=
  {| out_sketch := twoRefs; out_index := 1; pairs := [accepted] |}.

End Sample.

(** ** The work items of a run (lines 187-209) *)

Module Run.

(** [new PairwiseInput(sketch, j, parameters, distanceMax, pValueMax,
    hashTable, hashTableSize)]. *)
Definition workItem (sk : Sketch) (distanceMax pValueMax : float)
    (t : HashTable) (hashTableSize : Z) (j : Z) : PairwiseInput :=
  {| in_sketch := sk; in_index := j;
     in_maxDistance := distanceMax; in_maxPValue := pValueMax;
     in_hashTable := t; in_hashTableSize := hashTableSize |}.

(** One pass of the round loop: a fresh table is filled over the range,
    then one item per [j] from 1 below [end] is handed to the pool. *)
Definition roundItems (hashTableSize : Z) (sk : Sketch)
    (distanceMax pValueMax : float) (rg : Z * Z)
    : result (list PairwiseInput) :=
  do t <~ fillHashTable sk ∅ hashTableSize (fst rg) (snd rg) in
  Ok (map (workItem sk distanceMax pValueMax t hashTableSize)
        (roundQueries rg)).

Fixpoint roundsItems (hashTableSize : Z) (sk : Sketch)
    (distanceMax pValueMax : float) (rgs : list (Z * Z))
    : result (list PairwiseInput) :=
  match rgs with
  | [] => Ok []
  | rg :: rest =>
      do here <~ roundItems hashTableSize sk distanceMax pValueMax rg in
      do later <~ roundsItems hashTableSize sk distanceMax pValueMax rest in
      Ok (here ++ later)
  end.

(** All items of a run in submission order; [S] is
    [parameters.minHashesPerWindow] and the slot budget is the
    [hashTableSize] also given to [fillHashTable]. *)
Definition runItems (hashTableSize : Z) (sk : Sketch) (S : Z)
    (distanceMax pValueMax : float) : result (list PairwiseInput) :=
  roundsItems hashTableSize sk distanceMax pValueMax
    (roundRanges hashTableSize (getReferenceCount sk) S).

End Run.

Import Run.

(** ** The scan for oversized sequences (lines 77-81, 131-147) *)

Module Warning.

(** [lengthMax], [lengthMaxName] and [warningCount]. *)
Record WarnState : Type :=
  { lengthMax : Z; lengthMaxName : string; warningCount : Z }.

(** Before the loop only [warningCount] has a value. *)
Definition warnInit (lengthMax0 : Z) (name0 : string) : WarnState :=
  {| lengthMax := lengthMax0; lengthMaxName := name0; warningCount := 0 |}.

(** [length > lengthThreshold]: the [uint64_t] is converted to [double]. *)
Definition tooLong (lengthThreshold : float) (len : Z) : bool :=
  (lengthThreshold <? to_double len)%float.

(** The loop body for one reference. *)
Definition warnStep (lengthThreshold : float) (st : WarnState)
    (r : Reference) : WarnState :=
  let len := ref_length r in
  if tooLong lengthThreshold len then
    let st' :=
      if (warningCount st =? 0) || (lengthMax st <? len)
      then {| lengthMax := len; lengthMaxName := ref_name r;
              warningCount := warningCount st |}
      else st in
    {| lengthMax := lengthMax st'; lengthMaxName := lengthMaxName st';
       warningCount := to_int (warningCount st' + 1) |}
  else st.

Definition warnScan (lengthThreshold : float) (sk : Sketch)
    (lengthMax0 : Z) (name0 : string) : WarnState :=
  foldl (warnStep lengthThreshold) (warnInit lengthMax0 name0)
        (references sk).

(** The references the scan counts. *)
Definition offenders (lengthThreshold : float) (sk : Sketch)
    : list Reference :=
  filter (fun r => tooLong lengthThreshold (ref_length r) = true)
         (references sk).

End Warning.

Import Warning.

(** ** Notions used to state what the merge and the writer compute *)

Module Overlap.

(** The number of elements of [r] whose key is a key of [q]. *)
Definition sharedCount (w64 : bool) (r q : list hash_u) : Z :=
  size (filter (fun a => hashKey w64 a ∈ hashKey w64 <$> q) r).

(** Keys in strictly ascending order. *)
Definition ascending (w64 : bool) (r : list hash_u) : Prop :=
  StronglySorted Z.lt (hashKey w64 <$> r).

(** No key of [r] is a key of [q]. *)
Definition disjointKeys (w64 : bool) (r q : list hash_u) : Prop :=
  forall a b, a ∈ r -> b ∈ q -> hashKey w64 a <> hashKey w64 b.

(** The name [getReference(i).name] prints; empty when there is none. *)
Definition nameOf (sk : Sketch) (i : Z) : string :=
  match getReference sk i with
  | Ok r => ref_name r
  | _ => EmptyString
  end.

(** The line of the tuple stream for one pair of query [i]. *)
Definition tupleLine (sk : Sketch) (i : Z) (pair : PairOutput.t)
    : list token :=
  [Str (nameOf sk i); Tab; Str (nameOf sk (PairOutput.index pair)); Tab;
   Dbl (PairOutput.distance pair); Tab; Dbl (PairOutput.pValue pair); Tab;
   U64 (PairOutput.numer pair); Slash; U64 (PairOutput.denom pair); Endl].

(** The cells of a table row after the name and its tab, with [j] the
    column counter on entry: for each pair the padding tabs, a tab and
    the distance. *)
Fixpoint tableCells (j : Z) (ps : list PairOutput.t) : list token :=
  match ps with
  | [] => []
  | p :: rest =>
      replicate (Z.to_nat (PairOutput.index p - j)) Tab
      ++ [Tab; Dbl (PairOutput.distance p)]
      ++ tableCells (Z.max j (PairOutput.index p)) rest
  end.

Definition isTab (x : token) : bool :=
  match x with Tab => true | _ => false end.

(** The number of tabs in a token sequence. *)
Definition tabCount (l : list token) : Z :=
  size (List.filter isTab l).

End Overlap.

Import Overlap.

(** * Properties *)

(** ** Machine integers *)

Lemma wrap64_small z : 0 <= z < two64 -> wrap64 z = z.
Proof. intros H. unfold wrap64. now apply Z.mod_small. Qed.

Lemma wrap64_range z : 0 <= wrap64 z < two64.
Proof. unfold wrap64. apply Z.mod_pos_bound. reflexivity. Qed.

Lemma to_int_range z : - two31 <= to_int z < two31.
Proof.
  unfold to_int, two32, two31.
  pose proof (Z.mod_pos_bound z (2 ^ 32) eq_refl) as Hb.
  destruct (Z.ltb_spec (z mod 2 ^ 32) (2 ^ 31)); lia.
Qed.

Lemma to_int_small z : 0 <= z < two31 -> to_int z = z.
Proof.
  intros H. unfold to_int, two32, two31 in *.
  rewrite Z.mod_small by lia.
  destruct (Z.ltb_spec z (2 ^ 31)); lia.
Qed.

Lemma of_int_small z : 0 <= z < two31 -> of_int z = z.
Proof.
  intros H. unfold of_int. apply wrap64_small.
  unfold two31, two64 in *. lia.
Qed.

(** A nonzero [int] stays nonzero when widened to [uint64_t]. *)
Lemma of_int_nonzero z : - two31 <= z < two31 -> z <> 0 -> of_int z <> 0.
Proof.
  intros Hr Hz Hw. unfold of_int, wrap64, two64, two31 in *.
  apply Z.mod_divide in Hw; [| lia].
  destruct Hw as [c Hc]. lia.
Qed.

(** ** Round partitioner *)

Section RoundFacts.
Variables B R S : Z.

(** Whatever the inputs, the round counter has left zero behind, also
    after the widening that precedes the division. *)
Lemma roundCount_nonzero :
  roundCount B R S <> 0 /\ of_int (roundCount B R S) <> 0.
Proof.
  assert (Hnz : roundCount B R S <> 0).
  { unfold roundCount.
    destruct (Z.eqb_spec (to_int (wrap64 (R * S) / B / 2)) 0); lia. }
  split; [exact Hnz |].
  apply of_int_nonzero; [| exact Hnz].
  unfold roundCount.
  destruct (Z.eqb_spec (to_int (wrap64 (R * S) / B / 2)) 0).
  - unfold two31. lia.
  - apply to_int_range.
Qed.

Hypothesis HB : 0 < B.
Hypothesis HR : 1 <= R.
Hypothesis HS : 0 <= S.
Hypothesis Hprod : R * S < two64.
Hypothesis Hint : R * S / B / 2 < two31.

Lemma quotient_nonneg : 0 <= R * S / B / 2.
Proof. apply Z.div_pos; [apply Z.div_pos |]; nia. Qed.

Lemma roundCount_in_range : roundCount B R S = specRounds B R S.
Proof.
  pose proof quotient_nonneg as Hq.
  unfold roundCount, specRounds.
  rewrite (wrap64_small (R * S)) by nia.
  rewrite to_int_small by lia.
  destruct (Z.eqb_spec (R * S / B / 2) 0); lia.
Qed.

Lemma roundCount_bounds : 1 <= roundCount B R S < two31.
Proof.
  rewrite roundCount_in_range. unfold specRounds, two31 in *.
  pose proof quotient_nonneg. lia.
Qed.

Lemma roundSize_in_range : roundSize B R S = R / roundCount B R S.
Proof.
  unfold roundSize. rewrite of_int_small; [reflexivity |].
  pose proof roundCount_bounds. lia.
Qed.
End RoundFacts.

(** C7 (as amended).  For all inputs the round counter is nonzero, also
    after the widening that precedes the division, so [roundSize] is never
    a division by zero.  While the 64-bit product [R * S] and the [int]
    round counter do not overflow, the round count is
    [max(1, floor(R*S/B/2))], it is at least one, and [roundSize] is
    [floor(R / rounds)]. *)
Theorem roundCount_roundSize_spec (B R S : Z) :
  (roundCount B R S <> 0 /\ of_int (roundCount B R S) <> 0) /\
  (0 < B -> 1 <= R -> 0 <= S ->
   R * S < two64 -> R * S / B / 2 < two31 ->
   roundCount B R S = specRounds B R S /\
   roundSize B R S = R / roundCount B R S /\
   1 <= roundCount B R S).
Proof.
  split; [apply roundCount_nonzero |].
  intros HB HR HS Hp Hi.
  split; [now apply roundCount_in_range |].
  split; [now apply roundSize_in_range |].
  now apply roundCount_bounds.
Qed.

(** The budget smaller than one sketch, and a collection far below it. *)
Lemma roundCount_roundSize_spec_witness :
  roundCount hashTableSize 3 400 = 1 /\ roundSize hashTableSize 3 400 = 3 /\
  of_int (roundCount hashTableSize 3 400) <> 0.
Proof.
  destruct (roundCount_roundSize_spec hashTableSize 3 400)
    as [[_ Hnz] Hin].
  destruct Hin as (Hc & Hs & _).
  - reflexivity.
  - lia.
  - lia.
  - reflexivity.
  - reflexivity.
  - split; [rewrite Hc; reflexivity |].
    split; [rewrite Hs, Hc; reflexivity | exact Hnz].
Defined.

(** C7, as stated, at 2^27 references of capacity 2^30: the quotient is
    2^31, which the [int] counter holds as -2^31; the round loop is not
    entered. *)
Lemma roundCount_overflow :
  1 <= 2 ^ 27 /\
  specRounds hashTableSize (2 ^ 27) (2 ^ 30) = 2147483648 /\
  roundCount hashTableSize (2 ^ 27) (2 ^ 30) = -2147483648 /\
  roundRanges hashTableSize (2 ^ 27) (2 ^ 30) = [] /\
  ~ (roundCount hashTableSize (2 ^ 27) (2 ^ 30)
       = specRounds hashTableSize (2 ^ 27) (2 ^ 30) /\
     1 <= roundCount hashTableSize (2 ^ 27) (2 ^ 30)).
Proof.
  split; [lia |]. split; [reflexivity |]. split; [reflexivity |].
  split; [reflexivity |].
  intros [H _]. vm_compute in H. discriminate H.
Qed.

Section RoundRangeFacts.
Variables B R S : Z.
Hypothesis HB : 0 < B.
Hypothesis HR : 1 <= R < two64.
Hypothesis HS : 0 <= S.
Hypothesis Hprod : R * S < two64.
Hypothesis Hint : R * S / B / 2 < two31.

Let rounds := roundCount B R S.
Let rsize := roundSize B R S.

Lemma rounds_bounds : 1 <= rounds < two31.
Proof. apply roundCount_bounds; lia. Qed.

Lemma rsize_total : 0 <= rsize /\ rounds * rsize <= R.
Proof.
  pose proof rounds_bounds as Hb.
  unfold rsize. rewrite roundSize_in_range by lia. fold rounds.
  split; [apply Z.div_pos; lia | apply Z.mul_div_le; lia].
Qed.

(** Inside the loop the products do not wrap and the clamp
    [if ( end > count )] is never taken. *)
Lemma roundRange_in_range i :
  0 <= i < rounds ->
  roundRange R rsize i = (i * rsize, (i + 1) * rsize).
Proof.
  intros Hi.
  pose proof rounds_bounds as Hb. pose proof rsize_total as [Hs Ht].
  unfold two31, two64 in *.
  assert (Hle : (i + 1) * rsize <= R) by nia.
  unfold roundRange.
  rewrite (to_int_small (i + 1)) by (unfold two31; lia).
  rewrite (of_int_small i), (of_int_small (i + 1)) by (unfold two31; lia).
  rewrite (wrap64_small (i * rsize)), (wrap64_small ((i + 1) * rsize))
    by (unfold two64; nia).
  destruct (Z.ltb_spec R ((i + 1) * rsize)); [lia | reflexivity].
Qed.

(** The rounds are laid end to end from index 0. *)
Lemma roundRanges_lookup (n : nat) :
  Z.of_nat n < rounds ->
  roundRanges B R S !! n
    = Some (Z.of_nat n * rsize, (Z.of_nat n + 1) * rsize).
Proof.
  intros Hn. unfold roundRanges. fold rounds rsize.
  rewrite list_lookup_fmap, lookup_seqZ_lt by lia. simpl.
  rewrite Z.add_0_l, roundRange_in_range by lia. reflexivity.
Qed.

(** What the rounds cover is exactly [0, rounds * roundSize). *)
Lemma covered_iff x :
  covered B R S x = true <-> 0 <= x < rounds * rsize.
Proof.
  pose proof rounds_bounds as Hb. pose proof rsize_total as [Hs Ht].
  unfold covered, roundRanges. fold rounds rsize.
  rewrite existsb_exists. split.
  - intros (rg & Hin & Hx).
    apply in_map_iff in Hin. destruct Hin as (i & <- & Hi).
    apply list_elem_of_In, elem_of_seqZ in Hi.
    rewrite roundRange_in_range in Hx by lia.
    unfold inRange in Hx. simpl in Hx.
    apply andb_true_iff in Hx. destruct Hx as [H1 H2].
    apply Z.leb_le in H1. apply Z.ltb_lt in H2. nia.
  - intros Hx.
    assert (Hpos : 0 < rsize) by nia.
    exists (roundRange R rsize (x / rsize)).
    assert (Hq : 0 <= x / rsize < rounds).
    { split; [apply Z.div_pos; lia |].
      apply Z.div_lt_upper_bound; lia. }
    split.
    + apply in_map, list_elem_of_In, elem_of_seqZ. lia.
    + rewrite roundRange_in_range by lia.
      unfold inRange. simpl.
      pose proof (Z.mul_div_le x rsize Hpos).
      pose proof (Z.mul_succ_div_gt x rsize Hpos).
      apply andb_true_iff. split; [apply Z.leb_le | apply Z.ltb_lt]; lia.
Qed.

(** Every reference is covered exactly when the round count divides the
    reference count. *)
Lemma covered_all_iff :
  (forall x, 0 <= x < R -> covered B R S x = true) <-> R mod rounds = 0.
Proof.
  pose proof rounds_bounds as Hb. pose proof rsize_total as [Hs Ht].
  assert (Hdm : R = rounds * rsize + R mod rounds).
  { unfold rsize. rewrite roundSize_in_range by lia. fold rounds.
    apply Z.div_mod. lia. }
  pose proof (Z.mod_pos_bound R rounds ltac:(lia)) as Hm.
  split.
  - intros Hall.
    destruct (Z.eq_dec (R mod rounds) 0) as [| Hne]; [assumption |].
    specialize (Hall (R - 1) ltac:(lia)).
    apply covered_iff in Hall. lia.
  - intros H0 x Hx. apply covered_iff. lia.
Qed.
End RoundRangeFacts.

(** C1: 503317 references of capacity 400 under the budget of 2^25 slots.
    The run makes three rounds of 167772 references; the clamp is not
    taken and reference 503316 belongs to no round. *)
Theorem roundRanges_drop_remainder :
  roundCount hashTableSize 503317 400 = specRounds hashTableSize 503317 400 /\
  roundRanges hashTableSize 503317 400
    = [(0, 167772); (167772, 335544); (335544, 503316)] /\
  covered hashTableSize 503317 400 503316 = false.
Proof. repeat split; vm_compute; reflexivity. Qed.

(** ** Inverted index *)

Section IndexFacts.
Variable sk : Sketch.

Lemma listFor_push_back k i (t : HashTable) h :
  listFor (push_back_at k i t) h
    = if decide (k = h) then listFor t h ++ [i] else listFor t h.
Proof.
  unfold push_back_at, listFor at 1. destruct (decide (k = h)) as [-> | Hne].
  - now rewrite lookup_insert_eq.
  - now rewrite lookup_insert_ne.
Qed.

Lemma listFor_insertHashes w i hs (t : HashTable) h :
  listFor (insertHashes w i hs t) h
    = listFor t h
      ++ ((fun _ => i) <$> filter (fun k => k = h) (hashKey w <$> hs)).
Proof.
  unfold insertHashes. revert t.
  induction hs as [| x hs IH]; intros t; simpl.
  - now rewrite app_nil_r.
  - rewrite IH, listFor_push_back, filter_cons.
    destruct (decide (hashKey w x = h)); simpl.
    + now rewrite <- app_assoc.
    + reflexivity.
Qed.

Lemma listFor_touch (t : HashTable) k h :
  listFor (touch t k) h = listFor t h.
Proof.
  unfold touch. destruct (t !! k) eqn:Hk; [reflexivity |].
  unfold listFor. destruct (decide (k = h)) as [-> | Hne].
  - now rewrite lookup_insert_eq, Hk.
  - now rewrite lookup_insert_ne.
Qed.

(** The occupancy pass changes no list. *)
Lemma listFor_occupancyPass n (t : HashTable) h :
  listFor (occupancyPass n t) h = listFor t h.
Proof.
  unfold occupancyPass. generalize (seqZ 0 n). intros ks. revert t.
  induction ks as [| k ks IH]; intros t; simpl; [reflexivity |].
  now rewrite IH, listFor_touch.
Qed.

Lemma getReference_in_range i :
  0 <= i < getReferenceCount sk -> exists r, getReference sk i = Ok r.
Proof.
  intros [H0 H1]. unfold getReference, at_, getReferenceCount, size in *.
  destruct (Z.ltb_spec i 0); [lia |].
  destruct (lookup_lt_is_Some_2 (references sk) (Z.to_nat i)) as [r Hr];
    [lia |].
  exists r. now rewrite Hr.
Qed.

Lemma keysOf_Ok i r :
  getReference sk i = Ok r ->
  keysOf sk i = hashKey (use64 sk) <$> hashes (hashesSorted r).
Proof. intros H. unfold keysOf. now rewrite H. Qed.

(** The scan of [n] references from [i] on: it ends normally and each
    list grows by the entries of [i], [i+1], ... in this order. *)
Lemma fillLoop_spec (n : nat) : forall i (t : HashTable),
  0 <= i -> i + Z.of_nat n <= getReferenceCount sk ->
  i + Z.of_nat n < two31 ->
  exists t', fillLoop n sk (i + Z.of_nat n) i t = Ok t' /\
    forall h, listFor t' h
              = listFor t h ++ flat_map (entries sk h) (seqZ i (Z.of_nat n)).
Proof.
  induction n as [| n IH]; intros i t H0 Hc Hi.
  - exists t. simpl. rewrite of_int_small by lia.
    destruct (Z.ltb_spec i (i + Z.of_nat 0)); [lia |].
    split; [reflexivity |]. intros h. now rewrite app_nil_r.
  - cbn [fillLoop]. rewrite of_int_small by lia.
    destruct (Z.ltb_spec i (i + Z.of_nat (S n))); [| lia].
    destruct (getReference_in_range i) as [r Hr]; [lia |].
    rewrite Hr. cbn [bind].
    rewrite to_int_small by lia.
    destruct (IH (i + 1)
                (insertHashes (use64 sk) i (hashes (hashesSorted r)) t))
      as (t' & Hrun & Hlists); [lia | lia | lia |].
    replace (i + 1 + Z.of_nat n) with (i + Z.of_nat (S n)) in Hrun by lia.
    exists t'. split; [exact Hrun |].
    intros h. rewrite Hlists, listFor_insertHashes.
    rewrite (seqZ_cons i (Z.of_nat (S n))) by lia. cbn [flat_map].
    replace (Z.pred (Z.of_nat (S n))) with (Z.of_nat n) by lia.
    replace (Z.succ i) with (i + 1) by lia.
    unfold entries at 2. rewrite (keysOf_Ok i r Hr).
    now rewrite <- app_assoc.
Qed.

Lemma elem_of_entries h i x :
  x ∈ entries sk h i <-> x = i /\ h ∈ keysOf sk i.
Proof.
  unfold entries. rewrite list_elem_of_fmap. split.
  - intros (k & -> & Hk). apply list_elem_of_filter in Hk.
    destruct Hk as [-> Hk]. now split.
  - intros [-> Hh]. exists h. split; [reflexivity |].
    apply list_elem_of_filter. now split.
Qed.

Lemma elem_of_scan h m n x :
  x ∈ flat_map (entries sk h) (seqZ m n)
  <-> m <= x < m + n /\ h ∈ keysOf sk x.
Proof.
  rewrite list_elem_of_In, in_flat_map. split.
  - intros (i & Hi & Hx).
    apply list_elem_of_In, elem_of_seqZ in Hi.
    apply list_elem_of_In, elem_of_entries in Hx.
    destruct Hx as [-> Hh]. now split.
  - intros [Hr Hh]. exists x. split.
    + now apply list_elem_of_In, elem_of_seqZ.
    + apply list_elem_of_In, elem_of_entries. now split.
Qed.

Lemma scan_sorted h (n : nat) : forall m,
  StronglySorted Z.le (flat_map (entries sk h) (seqZ m (Z.of_nat n))).
Proof.
  induction n as [| n IH]; intros m.
  - rewrite seqZ_nil by lia. constructor.
  - rewrite seqZ_cons by lia. cbn [flat_map].
    replace (Z.pred (Z.of_nat (S n))) with (Z.of_nat n) by lia.
    assert (Hrest : Forall (Z.le m)
                      (flat_map (entries sk h) (seqZ (Z.succ m) (Z.of_nat n)))).
    { apply Forall_forall. intros x Hx.
      apply elem_of_scan in Hx. lia. }
    specialize (IH (Z.succ m)). revert IH Hrest.
    generalize (flat_map (entries sk h) (seqZ (Z.succ m) (Z.of_nat n))). intros rest.
    unfold entries. generalize (filter (fun k => k = h) (keysOf sk m)).
    intros ks Hs Hf. induction ks as [| k ks IHk]; simpl; [exact Hs |].
    constructor; [exact IHk |].
    apply Forall_app. split; [| exact Hf].
    apply Forall_forall. intros x Hx.
    apply list_elem_of_fmap in Hx. destruct Hx as (? & -> & _). lia.
Qed.
End IndexFacts.

Lemma to_int_small_neg z : - two31 <= z < 0 -> to_int z = z.
Proof.
  intros H. unfold to_int, two32, two31 in *.
  assert (Hm : z mod 2 ^ 32 = z + 2 ^ 32).
  { symmetry. apply Z.mod_unique with (q := -1); lia. }
  rewrite Hm. destruct (Z.ltb_spec (z + 2 ^ 32) (2 ^ 31)); lia.
Qed.

Lemma of_int_neg z : - two31 <= z < 0 -> of_int z = two64 + z.
Proof.
  intros H. unfold of_int, wrap64, two64, two31 in *.
  symmetry. apply Z.mod_unique with (q := -1); lia.
Qed.

(** A loop whose condition fails at once does nothing. *)
Lemma fillLoop_not_entered (n : nat) (sk : Sketch) (end_ i : Z)
    (t : HashTable) :
  (of_int i <? end_) = false -> fillLoop n sk end_ i t = Ok t.
Proof. intros H. destruct n; simpl; now rewrite H. Qed.

Lemma getReference_not_fuel (sk : Sketch) (i : Z) :
  getReference sk i <> OutOfFuel.
Proof.
  unfold getReference, at_. destruct (i <? 0); [discriminate |].
  destruct (references sk !! Z.to_nat i); discriminate.
Qed.

(** The fuel never runs out before the loop of the code ends: each pass
    moves the widened counter at least one closer to [end], also across
    the wrap-around of the [int]. *)
Lemma fillLoop_fuel_enough (sk : Sketch) (end_ : Z) (n : nat) :
  end_ < two64 ->
  forall i (t : HashTable),
    - two31 <= i < two31 -> end_ - of_int i <= Z.of_nat n ->
    fillLoop n sk end_ i t <> OutOfFuel.
Proof.
  intros He. induction n as [| n IH]; intros i t Hi Hn.
  - simpl. destruct (Z.ltb_spec (of_int i) end_); [lia | discriminate].
  - cbn [fillLoop]. destruct (Z.ltb_spec (of_int i) end_) as [Hlt | Hge];
      [| discriminate].
    pose proof (getReference_not_fuel sk (of_int i)) as Hnf.
    destruct (getReference sk (of_int i)) as [r | | |]; cbn [bind];
      try discriminate; [| contradiction].
    apply IH; [apply to_int_range |].
    unfold two31, two64 in *.
    destruct (Z_lt_le_dec i 0) as [Hneg | Hpos].
    + rewrite of_int_neg in Hlt, Hn by (unfold two31; lia).
      unfold two64 in *.
      assert (i + 1 < 0) by lia.
      rewrite to_int_small_neg, of_int_neg by (unfold two31; lia).
      unfold two64. lia.
    + rewrite of_int_small in Hlt, Hn by (unfold two31; lia).
      destruct (Z_lt_le_dec (i + 1) (2 ^ 31)) as [Hin | Hout].
      * rewrite to_int_small, of_int_small by (unfold two31; lia). lia.
      * replace (i + 1) with (2 ^ 31) by lia.
        change (of_int (to_int (2 ^ 31))) with (2 ^ 64 - 2 ^ 31). lia.
Qed.

Lemma fillHashTable_fuel_enough (sk : Sketch) (t : HashTable)
    (hashTableSize start end_ : Z) :
  end_ < two64 ->
  fillHashTable sk t hashTableSize start end_ <> OutOfFuel.
Proof.
  intros He. unfold fillHashTable, fillFuel.
  pose proof (fillLoop_fuel_enough sk end_
                (Z.to_nat (end_ - of_int (to_int start))) He
                (to_int start) t (to_int_range start) ltac:(lia)) as Hf.
  destruct (fillLoop _ _ _ _ _) as [t1 | | |]; cbn [bind];
    try discriminate; [| contradiction].
  unfold tableLog. destruct (hashTableSize =? 0); discriminate.
Qed.

Lemma keysOf_replicate (sk : Sketch) (n : nat) (r : Reference) (i : Z) :
  references sk = replicate n r -> 0 <= i < Z.of_nat n ->
  keysOf sk i = hashKey (use64 sk) <$> hashes (hashesSorted r).
Proof.
  intros Hrefs Hi. unfold keysOf, getReference, at_. rewrite Hrefs.
  destruct (Z.ltb_spec i 0); [lia |].
  rewrite lookup_replicate_2 by lia. reflexivity.
Qed.

Lemma tableLog_Ok (hashTableSize : Z) (t : HashTable) :
  hashTableSize <> 0 -> exists line, tableLog hashTableSize t = Ok line.
Proof.
  intros Hnz. unfold tableLog.
  destruct (Z.eqb_spec hashTableSize 0); [contradiction | eauto].
Qed.


(** Inside the range of the [int] counter the fuel is the width of the
    range, and a positive table size lets the log line through. *)
Lemma fillHashTable_unfold (sk : Sketch) (t : HashTable)
    (hashTableSize start end_ : Z) :
  0 <= start <= end_ -> end_ < two31 -> hashTableSize <> 0 ->
  fillHashTable sk t hashTableSize start end_
  = do t1 <~ fillLoop (Z.to_nat (end_ - start)) sk end_ start t in
    Ok (occupancyPass hashTableSize t1).
Proof.
  intros Hse Hi Hnz. unfold fillHashTable, fillFuel.
  rewrite to_int_small, of_int_small by lia.
  destruct (fillLoop _ _ _ _ _) as [t1 | | |]; cbn [bind]; try reflexivity.
  destruct (tableLog_Ok hashTableSize t1 Hnz) as [line ->]. reflexivity.
Qed.

(** The table [fillHashTable] leaves behind, list by list. *)
Lemma fillHashTable_lists (sk : Sketch) (hashTableSize start end_ : Z) :
  hashTableSize <> 0 ->
  0 <= start <= end_ -> end_ <= getReferenceCount sk -> end_ < two31 ->
  exists t : HashTable,
    fillHashTable sk ∅ hashTableSize start end_ = Ok t /\
    forall h, listFor t h
              = flat_map (entries sk h) (seqZ start (end_ - start)).
Proof.
  intros Hnz Hse Hc Hi.
  destruct (fillLoop_spec sk (Z.to_nat (end_ - start)) start ∅)
    as (t1 & Hrun & Hlists); [lia | lia | lia |].
  replace (start + Z.of_nat (Z.to_nat (end_ - start))) with end_ in Hrun
    by lia.
  exists (occupancyPass hashTableSize t1). split.
  - rewrite fillHashTable_unfold by (assumption || lia).
    rewrite Hrun. reflexivity.
  - intros h. rewrite listFor_occupancyPass, Hlists.
    unfold listFor at 1. rewrite lookup_empty. simpl.
    now rewrite Z2Nat.id by lia.
Qed.

Lemma fillHashTable_index_lists (sk : Sketch)
    (hashTableSize start end_ : Z) :
  hashTableSize <> 0 ->
  0 <= start <= end_ -> end_ <= getReferenceCount sk -> end_ < two31 ->
  exists t : HashTable,
    fillHashTable sk ∅ hashTableSize start end_ = Ok t /\
    forall h i, i ∈ listFor t h <-> start <= i < end_ /\ h ∈ keysOf sk i.
Proof.
  intros Hnz Hse Hc Hi.
  destruct (fillHashTable_lists sk hashTableSize start end_ Hnz Hse Hc Hi)
    as (t & Hrun & Hl).
  exists t. split; [exact Hrun |].
  intros h i. rewrite Hl, elem_of_scan.
  split; intros [? ?]; split; lia || assumption.
Qed.

(** C6 (as amended).  Run with a positive table size on an empty table
    over a round range [start, end) of existing references that ends
    below 2^31, the reach of the [int] loop counter, [fillHashTable] ends
    normally; afterwards the list of every hash value [h] holds [i]
    exactly when [i] is in the range and [h] is a key of sketch [i], and
    every list is in ascending index order. *)
Theorem fillHashTable_index (sk : Sketch) (hashTableSize start end_ : Z) :
  0 < hashTableSize ->
  0 <= start <= end_ -> end_ <= getReferenceCount sk -> end_ < two31 ->
  exists t : HashTable,
    fillHashTable sk ∅ hashTableSize start end_ = Ok t /\
    (forall h i, i ∈ listFor t h <-> start <= i < end_ /\ h ∈ keysOf sk i) /\
    (forall h, StronglySorted Z.le (listFor t h)).
Proof.
  intros Hsz Hse Hc Hi.
  destruct (fillHashTable_lists sk hashTableSize start end_ ltac:(lia)
              Hse Hc Hi) as (t & Hrun & Hl).
  exists t. split; [exact Hrun |]. split.
  - intros h i. rewrite Hl, elem_of_scan.
    split; intros [? ?]; split; lia || assumption.
  - intros h. rewrite Hl.
    rewrite <- (Z2Nat.id (end_ - start)) by lia. apply scan_sorted.
Qed.

(** C6, as stated, on a collection that reaches index 2^31, over the
    round range that holds this index alone: the counter [int i = start]
    starts at -2^31, widened it is above [end], the loop is not entered
    and the list of hash 1 lacks the index although sketch 2^31 holds the
    hash. *)
Lemma fillHashTable_int_counter :
  2 ^ 31 + 1 <= getReferenceCount Sample.big /\
  1 ∈ keysOf Sample.big (2 ^ 31) /\
  exists t : HashTable,
    fillHashTable Sample.big ∅ 4 (2 ^ 31) (2 ^ 31 + 1) = Ok t /\
    listFor t 1 = [] /\
    ~ (forall h i, i ∈ listFor t h
                   <-> 2 ^ 31 <= i < 2 ^ 31 + 1 /\ h ∈ keysOf Sample.big i).
Proof.
  assert (Hrefs : references Sample.big
                  = replicate (Z.to_nat (2 ^ 31 + 1))
                      (Sample.reference "a" 12 [1])) by reflexivity.
  assert (Hkeys : 1 ∈ keysOf Sample.big (2 ^ 31)).
  { rewrite (keysOf_replicate Sample.big _ _ (2 ^ 31) Hrefs) by lia.
    change (use64 Sample.big) with true.
    apply list_elem_of_In. simpl. left. reflexivity. }
  split.
  { unfold getReferenceCount, size. rewrite Hrefs, length_replicate. lia. }
  split; [exact Hkeys |].
  exists (occupancyPass 4 ∅).
  assert (Hl : listFor (occupancyPass 4 ∅) 1 = []).
  { rewrite listFor_occupancyPass. reflexivity. }
  split; [| split; [exact Hl |]].
  - unfold fillHashTable.
    rewrite fillLoop_not_entered by reflexivity. cbn [bind].
    destruct (tableLog_Ok 4 ∅ ltac:(lia)) as [line ->]. reflexivity.
  - intros Hall.
    assert (Hin : 2 ^ 31 ∈ listFor (occupancyPass 4 ∅) 1).
    { apply Hall. split; [lia | exact Hkeys]. }
    rewrite Hl in Hin. now apply elem_of_nil in Hin.
Qed.

(** ** Comparisons of [double] values *)

Lemma SFcompare_antisym f1 f2 :
  SFcompare f2 f1 = option_map CompOpp (SFcompare f1 f2).
Proof.
  destruct f1 as [s1 | s1 | | s1 m1 e1], f2 as [s2 | s2 | | s2 m2 e2];
    simpl; try reflexivity;
    try (destruct s1; reflexivity); try (destruct s2; reflexivity);
    try (destruct s1, s2; reflexivity).
  rewrite (Z.compare_antisym e1 e2).
  pose proof (Pos.compare_cont_antisym m1 m2 Eq) as Ha. simpl in Ha.
  rewrite <- Ha.
  destruct s1, s2; simpl; try reflexivity;
    destruct (e1 ?= e2); simpl; try reflexivity;
    destruct (Pos.compare_cont Eq m1 m2); reflexivity.
Qed.

Lemma SFcompare_None f1 f2 :
  SFcompare f1 f2 = None -> f1 = S754_nan \/ f2 = S754_nan.
Proof.
  destruct f1, f2; simpl; intros H; try discriminate; auto.
Qed.

Lemma is_nan_false x : is_nan x = false -> Prim2SF x <> S754_nan.
Proof.
  unfold is_nan. rewrite FloatAxioms.eqb_spec. intros H Hn. rewrite Hn in H.
  discriminate H.
Qed.

Lemma leb_true_ltb_false x y :
  (x <=? y)%float = true -> (y <? x)%float = false.
Proof.
  rewrite leb_spec, ltb_spec. unfold SFleb, SFltb.
  rewrite (SFcompare_antisym (Prim2SF x) (Prim2SF y)).
  destruct (SFcompare (Prim2SF x) (Prim2SF y)) as [[] |]; simpl;
    intros H; congruence.
Qed.

Lemma leb_false_ltb_true x y :
  is_nan x = false -> is_nan y = false ->
  (x <=? y)%float = false -> (y <? x)%float = true.
Proof.
  intros Hx Hy. apply is_nan_false in Hx. apply is_nan_false in Hy.
  rewrite leb_spec, ltb_spec. unfold SFleb, SFltb.
  rewrite (SFcompare_antisym (Prim2SF x) (Prim2SF y)).
  destruct (SFcompare (Prim2SF x) (Prim2SF y)) as [[] |] eqn:Hc; simpl;
    intros H; try congruence.
  apply SFcompare_None in Hc. tauto.
Qed.

(** ** The bounded merge *)

Section MergeFacts.
Variables (w64 : bool) (sketchSize : Z) (r q : list hash_u).

Lemma specMerge_cons a r' b q' c d :
  specMerge w64 sketchSize (a :: r') (b :: q') c d
  = if d <? sketchSize then
      if hashLessThan a b w64 then
        specMerge w64 sketchSize r' (b :: q') c (d + 1)
      else if hashLessThan b a w64 then
        specMerge w64 sketchSize (a :: r') q' c (d + 1)
      else specMerge w64 sketchSize r' q' (c + 1) (d + 1)
    else (c, d).
Proof. reflexivity. Qed.

Lemma specMerge_nil_l q' c d :
  specMerge w64 sketchSize [] q' c d = specFinish sketchSize [] q' c d.
Proof. destruct q'; reflexivity. Qed.

Lemma specMerge_nil_r r' c d :
  specMerge w64 sketchSize r' [] c d = specFinish sketchSize r' [] c d.
Proof. destruct r'; reflexivity. Qed.

(** Once [denom] has reached [sketchSize] nothing changes any more. *)
Lemma specMerge_full r' q' c d :
  (d <? sketchSize) = false -> specMerge w64 sketchSize r' q' c d = (c, d).
Proof.
  intros H. destruct r' as [| a r'], q' as [| b q'];
    [rewrite specMerge_nil_l | rewrite specMerge_nil_l
     | rewrite specMerge_nil_r | rewrite specMerge_cons];
    unfold specFinish; now rewrite H.
Qed.

Lemma size_drop {A : Type} (l : list A) (n : Z) :
  0 <= n <= size l -> size (drop (Z.to_nat n) l) = size l - n.
Proof. intros H. unfold size in *. rewrite length_drop. lia. Qed.

Lemma at_drop {A : Type} (l : list A) (n : Z) :
  0 <= n < size l ->
  exists x, at_ l n = Ok x /\
            drop (Z.to_nat n) l = x :: drop (Z.to_nat (n + 1)) l.
Proof.
  intros H. unfold at_, size in *.
  destruct (Z.ltb_spec n 0); [lia |].
  destruct (lookup_lt_is_Some_2 l (Z.to_nat n)) as [x Hx]; [lia |].
  exists x. rewrite Hx. split; [reflexivity |].
  replace (Z.to_nat (n + 1)) with (S (Z.to_nat n)) by lia.
  now apply drop_S.
Qed.

Hypothesis Hlen : size r + size q < 2 ^ 63.

(** With the loop left, the completion of the union is the finishing
    step of the specification. *)
Lemma completeUnion_exit st :
  mergeInv sketchSize r q st -> mergeCond sketchSize r q st = false ->
  (m_common st, completeUnion sketchSize r q st)
  = specMerge w64 sketchSize (drop (Z.to_nat (m_i st)) r)
      (drop (Z.to_nat (m_j st)) q) (m_common st) (m_denom st).
Proof.
  intros (Hi & Hj & Hc & Hij & Hd) Hcond.
  unfold completeUnion, mergeCond in *. unfold two64 in *.
  destruct (Z.ltb_spec (m_denom st) sketchSize) as [Hlt | Hge].
  2:{ rewrite specMerge_full; [reflexivity |]. now apply Z.ltb_ge. }
  simpl in Hcond.
  assert (Hs : forall x, 0 <= x < 2 ^ 63 -> wrap64 x = x).
  { intros x Hx. apply wrap64_small. unfold two64. lia. }
  destruct (Z.ltb_spec (m_i st) (size r)) as [Hir | Hir];
    destruct (Z.ltb_spec (m_j st) (size q)) as [Hjq | Hjq];
    try discriminate Hcond.
  - (* the query list is used up *)
    rewrite (drop_ge q) by (unfold size in *; lia).
    rewrite specMerge_nil_r. unfold specFinish.
    destruct (Z.ltb_spec (m_denom st) sketchSize); [| lia].
    rewrite size_drop by lia. change (size []) with 0.
    rewrite (Hs (size r - m_i st)) by lia. rewrite Hs by lia.
    destruct (Z.ltb_spec sketchSize (m_denom st + (size r - m_i st)));
      f_equal; lia.
  - (* the reference list is used up *)
    rewrite (drop_ge r) by (unfold size in *; lia).
    rewrite specMerge_nil_l. unfold specFinish.
    destruct (Z.ltb_spec (m_denom st) sketchSize); [| lia].
    rewrite size_drop by lia. change (size []) with 0.
    rewrite (Hs (size q - m_j st)) by lia. rewrite Hs by lia.
    destruct (Z.ltb_spec sketchSize (m_denom st + (size q - m_j st)));
      f_equal; lia.
  - (* both are used up *)
    rewrite (drop_ge r), (drop_ge q) by (unfold size in *; lia).
    rewrite specMerge_nil_l. unfold specFinish.
    destruct (Z.ltb_spec (m_denom st) sketchSize); [| lia].
    change (size []) with 0.
    destruct (Z.ltb_spec sketchSize (m_denom st)); f_equal; lia.
Qed.

(** The loop ends normally on the fuel it is given, and together with
    the completion it computes the merge of the specification. *)
Lemma mergeLoop_spec (fuel : nat) : forall st,
  mergeInv sketchSize r q st ->
  (size r - m_i st) + (size q - m_j st) <= Z.of_nat fuel ->
  exists st',
    mergeLoop fuel w64 sketchSize r q st = Ok st' /\
    (m_common st', completeUnion sketchSize r q st')
    = specMerge w64 sketchSize (drop (Z.to_nat (m_i st)) r)
        (drop (Z.to_nat (m_j st)) q) (m_common st) (m_denom st).
Proof.
  induction fuel as [| fuel IH]; intros st Hinv Hfuel.
  - destruct (mergeCond sketchSize r q st) eqn:Hcond.
    + exfalso. destruct Hinv as (Hi & Hj & _).
      unfold mergeCond in Hcond.
      apply andb_true_iff in Hcond. destruct Hcond as [Hcond Hjq].
      apply andb_true_iff in Hcond. destruct Hcond as [_ Hir].
      apply Z.ltb_lt in Hir, Hjq. lia.
    + exists st. simpl. rewrite Hcond. split; [reflexivity |].
      now apply completeUnion_exit.
  - destruct (mergeCond sketchSize r q st) eqn:Hcond.
    2:{ exists st. simpl. rewrite Hcond. split; [reflexivity |].
        now apply completeUnion_exit. }
    cbn [mergeLoop]. rewrite Hcond.
    destruct Hinv as (Hi & Hj & Hc & Hij & Hd).
    unfold mergeCond in Hcond.
    apply andb_true_iff in Hcond. destruct Hcond as [Hcond Hjq].
    apply andb_true_iff in Hcond. destruct Hcond as [Hdl Hir].
    apply Z.ltb_lt in Hir, Hjq, Hdl.
    destruct (at_drop r (m_i st)) as (a & Ha & Hdr); [lia |].
    destruct (at_drop q (m_j st)) as (b & Hb & Hdq); [lia |].
    unfold mergeStep. rewrite Ha, Hb. cbn [bind].
    rewrite Hdr, Hdq, specMerge_cons.
    destruct (Z.ltb_spec (m_denom st) sketchSize); [| lia].
    assert (Hs : forall x, 0 <= x < 2 ^ 63 -> wrap64 x = x).
    { intros x Hx. apply wrap64_small. unfold two64. lia. }
    assert (Hs' : wrap64 (m_denom st + 1) = m_denom st + 1).
    { apply wrap64_small. unfold two64 in *. lia. }
    destruct (hashLessThan a b w64);
      [| destruct (hashLessThan b a w64)]; cbn [m_i m_j m_common m_denom].
    + destruct (IH {| m_i := wrap64 (m_i st + 1); m_j := m_j st;
                      m_common := m_common st;
                      m_denom := wrap64 (m_denom st + 1) |})
        as (st' & Hrun & Hres).
      * unfold mergeInv. cbn [m_i m_j m_common m_denom]. rewrite Hs', Hs by lia. lia.
      * cbn [m_i m_j m_common m_denom]. rewrite Hs by lia. lia.
      * exists st'. split; [exact Hrun |]. rewrite Hres. cbn [m_i m_j m_common m_denom].
        rewrite Hs', Hs, <- Hdq by lia. reflexivity.
    + destruct (IH {| m_i := m_i st; m_j := wrap64 (m_j st + 1);
                      m_common := m_common st;
                      m_denom := wrap64 (m_denom st + 1) |})
        as (st' & Hrun & Hres).
      * unfold mergeInv. cbn [m_i m_j m_common m_denom]. rewrite Hs', Hs by lia. lia.
      * cbn [m_i m_j m_common m_denom]. rewrite Hs by lia. lia.
      * exists st'. split; [exact Hrun |]. rewrite Hres. cbn [m_i m_j m_common m_denom].
        rewrite Hs', Hs, <- Hdr by lia. reflexivity.
    + destruct (IH {| m_i := wrap64 (m_i st + 1);
                      m_j := wrap64 (m_j st + 1);
                      m_common := wrap64 (m_common st + 1);
                      m_denom := wrap64 (m_denom st + 1) |})
        as (st' & Hrun & Hres).
      * unfold mergeInv. cbn [m_i m_j m_common m_denom].
        rewrite Hs', (Hs (m_i st + 1)), (Hs (m_j st + 1)),
          (Hs (m_common st + 1)) by lia. lia.
      * cbn [m_i m_j m_common m_denom]. rewrite (Hs (m_i st + 1)), (Hs (m_j st + 1)) by lia. lia.
      * exists st'. split; [exact Hrun |]. rewrite Hres. cbn [m_i m_j m_common m_denom].
        rewrite Hs', (Hs (m_i st + 1)), (Hs (m_j st + 1)),
          (Hs (m_common st + 1)) by lia. reflexivity.
Qed.
End MergeFacts.

Section SpecMergeFacts.
Variables (w64 : bool) (sketchSize : Z).

(** The merge of the specification keeps [0 <= common <= denom] and
    never lets [denom] pass [sketchSize]. *)
Lemma specMerge_bounds (r : list hash_u) : forall q c d,
  0 <= c <= d -> d <= sketchSize ->
  0 <= fst (specMerge w64 sketchSize r q c d)
    <= snd (specMerge w64 sketchSize r q c d) /\
  snd (specMerge w64 sketchSize r q c d) <= sketchSize.
Proof.
  assert (Hfin : forall r' q' c d, 0 <= c <= d -> d <= sketchSize ->
            0 <= fst (specFinish sketchSize r' q' c d)
              <= snd (specFinish sketchSize r' q' c d) /\
            snd (specFinish sketchSize r' q' c d) <= sketchSize).
  { intros r' q' c d Hc Hd. unfold specFinish, size.
    destruct (Z.ltb_spec d sketchSize); simpl; lia. }
  induction r as [| a r' IHr]; intros q c d Hc Hd.
  - rewrite specMerge_nil_l. now apply Hfin.
  - revert c d Hc Hd.
    induction q as [| b q' IHq]; intros c d Hc Hd.
    + rewrite specMerge_nil_r. now apply Hfin.
    + rewrite specMerge_cons.
      destruct (Z.ltb_spec d sketchSize); [| simpl; lia].
      destruct (hashLessThan a b w64); [apply IHr; lia |].
      destruct (hashLessThan b a w64); [apply IHq; lia |].
      apply IHr; lia.
Qed.

Lemma hashLessThan_keys a b :
  hashLessThan a b w64 = (hashKey w64 a <? hashKey w64 b).
Proof. unfold hashLessThan, hashKey. now destruct w64. Qed.

(** Two lists with the same keys are walked in lockstep: every step is
    a shared hash. *)
Lemma specMerge_same_keys (r : list hash_u) : forall q c d,
  hashKey w64 <$> r = hashKey w64 <$> q ->
  c - d = fst (specMerge w64 sketchSize r q c d)
          - snd (specMerge w64 sketchSize r q c d).
Proof.
  induction r as [| a r' IH]; intros q c d Hk.
  - destruct q; [| discriminate Hk].
    simpl. unfold specFinish. change (size []) with 0.
    destruct (Z.ltb_spec d sketchSize); simpl; lia.
  - destruct q as [| b q']; [discriminate Hk |].
    injection Hk as Hab Hk.
    rewrite specMerge_cons, !hashLessThan_keys, Hab, Z.ltb_irrefl.
    destruct (Z.ltb_spec d sketchSize); [| simpl; lia].
    rewrite <- (IH q' (c + 1) (d + 1) Hk). lia.
Qed.
End SpecMergeFacts.

Section CountsFacts.
Variables (w64 : bool) (sketchSize : Z) (r q : list hash_u).
Hypothesis Hsize : 0 <= sketchSize.
Hypothesis Hlen : size r + size q < 2 ^ 63.

Lemma mergeInit_inv : mergeInv sketchSize r q mergeInit.
Proof. unfold mergeInv, mergeInit, size. cbn. lia. Qed.

(** The merge of the code is the merge of the specification. *)
Lemma mergeCounts_specCounts :
  mergeCounts w64 sketchSize r q = Ok (specCounts w64 sketchSize r q).
Proof.
  destruct (mergeLoop_spec w64 sketchSize r q Hlen
              (List.length r + List.length q) mergeInit mergeInit_inv)
    as (st' & Hrun & Hres).
  - unfold size, mergeInit. cbn. lia.
  - unfold mergeCounts. rewrite Hrun. cbn [bind]. rewrite Hres.
    reflexivity.
Qed.
End CountsFacts.

(** C2.  For every pair of hash lists (ascending or not) that fit in
    memory and every [sketchSize], the merge loop of [compareSketches]
    ends normally, its pair [(common, denom)] is the one the bounded
    sorted-merge of the specification computes, and
    [0 <= common <= denom <= sketchSize]. *)
Theorem compareSketches_merge_bounds (w64 : bool) (sketchSize : Z)
    (r q : list hash_u) :
  0 <= sketchSize -> size r + size q < 2 ^ 63 ->
  exists common denom,
    mergeCounts w64 sketchSize r q = Ok (common, denom) /\
    (common, denom) = specCounts w64 sketchSize r q /\
    0 <= common <= denom /\ denom <= sketchSize.
Proof.
  intros Hsize Hlen.
  exists (fst (specCounts w64 sketchSize r q)),
         (snd (specCounts w64 sketchSize r q)).
  rewrite <- surjective_pairing.
  split; [now apply mergeCounts_specCounts |].
  split; [reflexivity |].
  apply specMerge_bounds; lia.
Qed.

(** ** Distance and thresholds *)

Section ThresholdFacts.
Context `{Externals}.
Variables (output : PairOutput.t) (refRef refQry : Reference).
Variables (sketchSize kmerSize : Z).
Variables (kmerSpace maxDistance maxPValue : float).

Let hr := hashes (hashesSorted refRef).
Let hq := hashes (hashesSorted refQry).

Hypothesis Hsize : 0 <= sketchSize.
Hypothesis Hlen : size hr + size hq < 2 ^ 63.

(** [compareSketches] laid out on the outcome of the merge. *)
Lemma compareSketches_unfold :
  let cd := specCounts (get64 (hashesSorted refRef)) sketchSize hr hq in
  let d := distanceOf (fst cd) (snd cd) kmerSize in
  let p := pValue (fst cd) (ref_length refRef) (ref_length refQry)
             kmerSpace (snd cd) in
  compareSketches output refRef refQry sketchSize kmerSize kmerSpace
    maxDistance maxPValue
  = if distanceRejects d maxDistance then Ok (false, output)
    else Ok ((p <=? maxPValue)%float,
             {| PairOutput.numer := fst cd; PairOutput.denom := snd cd;
                PairOutput.distance := d; PairOutput.pValue := p;
                PairOutput.index := PairOutput.index output |}).
Proof.
  intros cd d p. unfold compareSketches.
  fold hr hq. rewrite (mergeCounts_specCounts _ _ hr hq Hsize Hlen).
  reflexivity.
Qed.

(** Whatever the thresholds, the call ends normally. *)
Lemma compareSketches_returns :
  exists b out, compareSketches output refRef refQry sketchSize kmerSize
                  kmerSpace maxDistance maxPValue = Ok (b, out).
Proof.
  rewrite compareSketches_unfold. cbv zeta.
  destruct (distanceRejects _ _); eauto.
Qed.
End ThresholdFacts.

(** C3.  With [(common, denom)] the outcome of the merge of the two
    sketches, the distance that [compareSketches] tests against the
    thresholds and writes into the pair record is exactly [0] when
    [common = denom], else exactly [1] when [common = 0], else
    [-log(2j/(1+j))/k] with [j] the quotient of [common] and [denom] as
    doubles; two lists with the same hash values give [common = denom],
    hence distance [0]. *)
Theorem distance_cases `{Externals} (output : PairOutput.t)
    (refRef refQry : Reference) (sketchSize kmerSize : Z)
    (kmerSpace maxDistance maxPValue : float) :
  0 <= sketchSize ->
  size (hashes (hashesSorted refRef)) + size (hashes (hashesSorted refQry))
    < 2 ^ 63 ->
  exists common denom distance,
    mergeCounts (get64 (hashesSorted refRef)) sketchSize
      (hashes (hashesSorted refRef)) (hashes (hashesSorted refQry))
    = Ok (common, denom) /\
    (common = denom -> distance = 0%float) /\
    (common <> denom -> common = 0 -> distance = 1%float) /\
    (common <> denom -> common <> 0 ->
       distance
       = (- log (2 * (to_double common / to_double denom)
                 / (1 + to_double common / to_double denom))
          / to_double kmerSize)%float) /\
    (hashKey (get64 (hashesSorted refRef)) <$> hashes (hashesSorted refRef)
     = hashKey (get64 (hashesSorted refRef)) <$> hashes (hashesSorted refQry)
     -> common = denom /\ distance = 0%float) /\
    compareSketches output refRef refQry sketchSize kmerSize kmerSpace
      maxDistance maxPValue
    = if (maxDistance <? distance)%float || (distance =? 1)%float
      then Ok (false, output)
      else Ok ((pValue common (ref_length refRef) (ref_length refQry)
                  kmerSpace denom <=? maxPValue)%float,
               {| PairOutput.numer := common; PairOutput.denom := denom;
                  PairOutput.distance := distance;
                  PairOutput.pValue :=
                    pValue common (ref_length refRef) (ref_length refQry)
                      kmerSpace denom;
                  PairOutput.index := PairOutput.index output |}).
Proof.
  intros Hsize Hlen.
  pose proof (compareSketches_unfold output refRef refQry sketchSize
                kmerSize kmerSpace maxDistance maxPValue Hsize Hlen) as Hcs.
  cbv zeta in Hcs.
  set (w := get64 (hashesSorted refRef)) in *.
  set (r := hashes (hashesSorted refRef)) in *.
  set (q := hashes (hashesSorted refQry)) in *.
  pose proof (specMerge_same_keys w sketchSize r q 0 0) as Hsame.
  fold (specCounts w sketchSize r q) in Hsame.
  rewrite (mergeCounts_specCounts w sketchSize r q Hsize Hlen).
  destruct (specCounts w sketchSize r q) as [c d].
  cbn [fst snd] in Hcs, Hsame.
  exists c, d, (distanceOf c d kmerSize).
  assert (Heq : c = d -> distanceOf c d kmerSize = 0%float).
  { intros ->. unfold distanceOf. now rewrite Z.eqb_refl. }
  split; [reflexivity |]. split; [exact Heq |]. split; [| split; [| split]].
  - intros Hne H0. unfold distanceOf.
    destruct (Z.eqb_spec c d); [contradiction |]. now rewrite H0.
  - intros Hne H0. unfold distanceOf, jaccardOf.
    destruct (Z.eqb_spec c d); [contradiction |].
    destruct (Z.eqb_spec c 0); [contradiction | reflexivity].
  - intros Hk. specialize (Hsame Hk).
    assert (c = d) by lia. split; [assumption | now apply Heq].
  - exact Hcs.
Qed.

(** Three of four hashes shared at capacity 4 and k = 9: [j] is 0.75. *)
Lemma distance_cases_witness :
  @compareSketches Sample.routines PairOutput.indeterminate
    (Sample.reference "a" 12 [1; 2; 3; 4])
    (Sample.reference "e" 12 [1; 2; 3; 5]) 4 9 512000000000%float
    1%float 1%float
  = Ok (true,
        {| PairOutput.numer := 3; PairOutput.denom := 4;
           PairOutput.distance :=
             (- @log Sample.routines (2 * 0.75 / (1 + 0.75)) / 9)%float;
           PairOutput.pValue := 0%float; PairOutput.index := 0 |}).
Proof.
  destruct (@distance_cases Sample.routines PairOutput.indeterminate
              (Sample.reference "a" 12 [1; 2; 3; 4])
              (Sample.reference "e" 12 [1; 2; 3; 5]) 4 9
              512000000000%float 1%float 1%float)
    as (c & d & dist & Hm & _ & _ & Hd & _ & Hcmp).
  - lia.
  - reflexivity.
  - vm_compute in Hm. injection Hm as <- <-.
    rewrite Hd in Hcmp by lia. rewrite Hcmp. reflexivity.
Defined.

(** C4.  With a p-value routine that returns numbers and a threshold that
    is a number, [compareSketches] returns [false] exactly when
    [distance > maxDistance], or [distance == 1], or
    [p-value > maxPValue]; when it returns [true] the pair record holds
    [(common, denom, distance, p-value)] and its index is untouched. *)
Theorem compareSketches_accept_iff `{Externals} (output : PairOutput.t)
    (refRef refQry : Reference) (sketchSize kmerSize : Z)
    (kmerSpace maxDistance maxPValue : float) :
  0 <= sketchSize ->
  size (hashes (hashesSorted refRef)) + size (hashes (hashesSorted refQry))
    < 2 ^ 63 ->
  (forall x lr lq ks n, is_nan (pValue x lr lq ks n) = false) ->
  is_nan maxPValue = false ->
  exists common denom b out',
    mergeCounts (get64 (hashesSorted refRef)) sketchSize
      (hashes (hashesSorted refRef)) (hashes (hashesSorted refQry))
    = Ok (common, denom) /\
    compareSketches output refRef refQry sketchSize kmerSize kmerSpace
      maxDistance maxPValue = Ok (b, out') /\
    (b = false <->
       (maxDistance <? distanceOf common denom kmerSize)%float = true \/
       (distanceOf common denom kmerSize =? 1)%float = true \/
       (maxPValue <? pValue common (ref_length refRef) (ref_length refQry)
                       kmerSpace denom)%float = true) /\
    (b = true ->
       out' = {| PairOutput.numer := common; PairOutput.denom := denom;
                 PairOutput.distance := distanceOf common denom kmerSize;
                 PairOutput.pValue :=
                   pValue common (ref_length refRef) (ref_length refQry)
                     kmerSpace denom;
                 PairOutput.index := PairOutput.index output |}).
Proof.
  intros Hsize Hlen Hp Hmax.
  pose proof (compareSketches_unfold output refRef refQry sketchSize
                kmerSize kmerSpace maxDistance maxPValue Hsize Hlen) as Hcs.
  cbv zeta in Hcs.
  set (cd := specCounts (get64 (hashesSorted refRef)) sketchSize
               (hashes (hashesSorted refRef))
               (hashes (hashesSorted refQry))) in *.
  set (d := distanceOf (fst cd) (snd cd) kmerSize) in *.
  set (p := pValue (fst cd) (ref_length refRef) (ref_length refQry)
              kmerSpace (snd cd)) in *.
  exists (fst cd), (snd cd).
  rewrite <- surjective_pairing.
  unfold distanceRejects in Hcs.
  destruct ((maxDistance <? d)%float) eqn:Hgt;
    [| destruct ((d =? 1)%float) eqn:Hone]; simpl in Hcs.
  - exists false, output.
    split; [now apply mergeCounts_specCounts |]. split; [exact Hcs |].
    split; [| discriminate]. split; auto.
  - exists false, output.
    split; [now apply mergeCounts_specCounts |]. split; [exact Hcs |].
    split; [| discriminate]. split; auto.
  - eexists _, _.
    split; [now apply mergeCounts_specCounts |]. split; [exact Hcs |].
    split; [| reflexivity]. split.
    + intros Hle. right. right.
      apply leb_false_ltb_true; [apply Hp | exact Hmax | exact Hle].
    + intros [Hf | [Hf | Hlt]].
      * subst d. congruence.
      * subst d. congruence.
      * destruct ((p <=? maxPValue)%float) eqn:Hle; [| reflexivity].
        apply leb_true_ltb_false in Hle. subst p. congruence.
Qed.

(** C10.  When both hash lists are empty the merge ends normally with
    [common = denom = 0]; the quotient [0/0] is a NaN that no branch
    reads; the distance is exactly [0]; and with a threshold
    [maxDistance >= 0] the distance test lets the pair through, so the
    outcome is the p-value test on the record [(0, 0, 0, p)]. *)
Theorem compareSketches_empty `{Externals} (output : PairOutput.t)
    (refRef refQry : Reference) (sketchSize kmerSize : Z)
    (kmerSpace maxDistance maxPValue : float) :
  hashes (hashesSorted refRef) = [] ->
  hashes (hashesSorted refQry) = [] ->
  (0 <=? maxDistance)%float = true ->
  mergeCounts (get64 (hashesSorted refRef)) sketchSize [] [] = Ok (0, 0) /\
  jaccardOf 0 0 = nan /\
  distanceOf 0 0 kmerSize = 0%float /\
  distanceRejects (distanceOf 0 0 kmerSize) maxDistance = false /\
  compareSketches output refRef refQry sketchSize kmerSize kmerSpace
    maxDistance maxPValue
  = Ok ((pValue 0 (ref_length refRef) (ref_length refQry) kmerSpace 0
           <=? maxPValue)%float,
        {| PairOutput.numer := 0; PairOutput.denom := 0;
           PairOutput.distance := 0%float;
           PairOutput.pValue :=
             pValue 0 (ref_length refRef) (ref_length refQry) kmerSpace 0;
           PairOutput.index := PairOutput.index output |}).
Proof.
  intros Hr Hq Hmax.
  assert (Hm : forall w, mergeCounts w sketchSize [] [] = Ok (0, 0)).
  { intros w. unfold mergeCounts. cbn [List.length Nat.add mergeLoop].
    unfold mergeCond, completeUnion, mergeInit.
    cbn [m_i m_j m_common m_denom]. change (size (@nil hash_u)) with 0.
    rewrite Z.ltb_irrefl, andb_false_r. cbn [bind m_common m_denom m_i m_j].
    rewrite Z.ltb_irrefl.
    destruct (Z.ltb_spec 0 sketchSize); [| reflexivity].
    destruct (Z.ltb_spec sketchSize 0); [lia | reflexivity]. }
  assert (Hrej : distanceRejects 0 maxDistance = false).
  { unfold distanceRejects.
    rewrite (leb_true_ltb_false _ _ Hmax). reflexivity. }
  split; [apply Hm |]. split; [reflexivity |].
  split; [reflexivity |]. split; [exact Hrej |].
  unfold compareSketches. rewrite Hr, Hq, Hm. cbn [bind fst snd].
  change (distanceOf 0 0 kmerSize) with 0%float.
  rewrite Hrej. reflexivity.
Qed.

(** ** Candidate search *)

Section TargetFacts.

Lemma elem_of_set_insert x s y :
  y ∈ set_insert x s <-> y = x \/ y ∈ s.
Proof.
  induction s as [| z s IH]; simpl.
  - rewrite list_elem_of_singleton, elem_of_nil. tauto.
  - destruct (Z.ltb_spec x z); [| destruct (Z.eqb_spec x z)].
    + rewrite !elem_of_cons. tauto.
    + subst. rewrite !elem_of_cons. tauto.
    + rewrite !elem_of_cons, IH. tauto.
Qed.

(** Insertion keeps the set strictly ascending. *)
Lemma set_insert_sorted x s :
  StronglySorted Z.lt s -> StronglySorted Z.lt (set_insert x s).
Proof.
  induction s as [| z s IH]; intros Hs; simpl.
  - repeat constructor.
  - apply StronglySorted_inv in Hs. destruct Hs as [Hs Hz].
    destruct (Z.ltb_spec x z); [| destruct (Z.eqb_spec x z)].
    + constructor; [now constructor |].
      constructor; [assumption |].
      eapply Forall_impl; [exact Hz |]. simpl. intros; lia.
    + now constructor.
    + constructor; [now apply IH |].
      apply Forall_forall. intros y Hy.
      apply elem_of_set_insert in Hy. destruct Hy as [-> | Hy]; [lia |].
      rewrite Forall_forall in Hz. now apply Hz.
Qed.

Lemma sorted_NoDup (s : list Z) : StronglySorted Z.lt s -> NoDup s.
Proof.
  induction 1 as [| z s Hs IH Hz]; constructor; [| assumption].
  intros Hin. rewrite Forall_forall in Hz. specialize (Hz z Hin). lia.
Qed.

Variable q : Z.

Lemma collectRow_spec indeces : forall targets,
  (forall y, y ∈ collectRow q indeces targets
             <-> y ∈ targets \/ (y ∈ indeces /\ y < q)) /\
  (StronglySorted Z.lt targets ->
   StronglySorted Z.lt (collectRow q indeces targets)).
Proof.
  unfold collectRow.
  induction indeces as [| i indeces IH]; intros targets; simpl.
  - split; [| tauto]. intros y. rewrite elem_of_nil. tauto.
  - destruct (Z.ltb_spec i q) as [Hlt | Hge].
    + destruct (IH (set_insert i targets)) as [Hm Hs]. split.
      * intros y. rewrite Hm, elem_of_set_insert, elem_of_cons.
        split; [intros [[-> | ?] | [? ?]] | intros [? | [[-> | ?] ?]]];
          tauto.
      * intros Hsorted. now apply Hs, set_insert_sorted.
    + destruct (IH targets) as [Hm Hs]. split; [| exact Hs].
      intros y. rewrite Hm, elem_of_cons.
      split; [tauto | intros [? | [[-> | ?] ?]]]; try tauto. lia.
Qed.

Variables (w64 : bool) (t : HashTable).

(** The loop over the hashes, from any set of targets. *)
Lemma collect_fold hs : forall targets,
  let step := fun tg h =>
                match t !! hashKey w64 h with
                | Some indeces => collectRow q indeces tg
                | None => tg
                end in
  (forall y, y ∈ foldl step targets hs
             <-> y ∈ targets \/
                 (y < q /\ exists h, h ∈ hs /\
                                     y ∈ listFor t (hashKey w64 h))) /\
  (StronglySorted Z.lt targets ->
   StronglySorted Z.lt (foldl step targets hs)).
Proof.
  induction hs as [| h hs IH]; intros targets step; simpl.
  - split; [| tauto]. intros y. split; [tauto |].
    intros [? | [_ (h & Hh & _)]]; [assumption |].
    now apply elem_of_nil in Hh.
  - destruct (IH (step targets h)) as [Hm Hs]. fold step in Hm, Hs.
    assert (Hstep : (forall y, y ∈ step targets h
                       <-> y ∈ targets \/
                           (y ∈ listFor t (hashKey w64 h) /\ y < q)) /\
                    (StronglySorted Z.lt targets ->
                     StronglySorted Z.lt (step targets h))).
    { unfold step, listFor. destruct (t !! hashKey w64 h) as [l |].
      - apply collectRow_spec.
      - split; [| tauto]. intros y. simpl. rewrite elem_of_nil. tauto. }
    destruct Hstep as [Hm1 Hs1]. split.
    + intros y. rewrite Hm, Hm1. split.
      * intros [[? | [? ?]] | [? (h' & Hh' & ?)]]; [tauto | |].
        -- right. split; [assumption |]. exists h.
           split; [apply elem_of_cons; tauto | assumption].
        -- right. split; [assumption |]. exists h'.
           split; [apply elem_of_cons; tauto | assumption].
      * intros [? | [? (h' & Hh' & ?)]]; [tauto |].
        apply elem_of_cons in Hh'. destruct Hh' as [-> | Hh'].
        -- tauto.
        -- right. split; [assumption |]. now exists h'.
    + intros Hsorted. now apply Hs, Hs1.
Qed.

Lemma collectTargets_spec hs :
  (forall y, y ∈ collectTargets w64 t q hs
             <-> y < q /\ exists h, h ∈ hs /\
                                    y ∈ listFor t (hashKey w64 h)) /\
  StronglySorted Z.lt (collectTargets w64 t q hs).
Proof.
  destruct (collect_fold hs []) as [Hm Hs]. cbv zeta in Hm, Hs.
  unfold collectTargets. split.
  - intros y. rewrite Hm, elem_of_nil. tauto.
  - apply Hs. constructor.
Qed.
End TargetFacts.

Section SearchFacts.
Variable input : PairwiseInput.

Let sk := in_sketch input.
Let q := in_index input.
Let t := in_hashTable input.

Hypothesis Hq : 0 <= q < getReferenceCount sk.

(** The targets of a work item: found, strictly ascending, and exactly
    the indices below the query listed under one of its hashes. *)
Lemma searchTargets_spec :
  exists targets,
    searchTargets input = Ok targets /\
    StronglySorted Z.lt targets /\
    forall x, x ∈ targets
              <-> x < q /\ exists h, h ∈ keysOf sk q /\ x ∈ listFor t h.
Proof.
  destruct (getReference_in_range sk q Hq) as [rq Hrq].
  destruct (collectTargets_spec q (use64 sk) t (hashes (hashesSorted rq)))
    as [Hm Hs].
  exists (collectTargets (use64 sk) t q (hashes (hashesSorted rq))).
  split; [| split; [exact Hs |]].
  - unfold searchTargets. fold sk q t. now rewrite Hrq.
  - intros x. rewrite Hm, (keysOf_Ok sk q rq Hrq). split.
    + intros [Hlt (h & Hh & Hx)]. split; [assumption |].
      exists (hashKey (use64 sk) h). split; [| assumption].
      apply list_elem_of_fmap. now exists h.
    + intros [Hlt (k & Hk & Hx)]. split; [assumption |].
      apply list_elem_of_fmap in Hk. destruct Hk as (h & -> & Hh).
      now exists h.
Qed.
End SearchFacts.


(** The indices a well-formed table lists are nonnegative. *)
Lemma wfTable_listFor (t : HashTable) h x :
  wfTable t -> x ∈ listFor t h -> 0 <= x.
Proof.
  intros Hwf Hx. unfold listFor in Hx.
  destruct (t !! h) as [l |] eqn:Hl; simpl in Hx.
  - specialize (Hwf h l Hl). simpl in Hwf.
    rewrite Forall_forall in Hwf. now apply Hwf.
  - now apply elem_of_nil in Hx.
Qed.

Section ScoreFacts.
Context `{Externals}.
Variable input : PairwiseInput.

Let sk := in_sketch input.
Let q := in_index input.

Hypothesis Hq : 0 <= q < getReferenceCount sk.
Hypothesis Hwf : wfSketch sk.

Lemma getReference_fits i r :
  getReference sk i = Ok r -> size (hashes (hashesSorted r)) < 2 ^ 62.
Proof.
  unfold getReference, at_. intros Hr.
  destruct (i <? 0); [discriminate |].
  destruct (references sk !! Z.to_nat i) as [r' |] eqn:Hl; [| discriminate].
  injection Hr as ->.
  destruct Hwf as [_ Hall]. rewrite Forall_forall in Hall.
  apply Hall. eapply list_elem_of_lookup_2. exact Hl.
Qed.

(** Scoring ends normally on targets that are references, and appends
    the accepted ones, each under the index of its target, in the order
    of the targets. *)
Lemma scoreTargets_sorted targets : forall acc,
  StronglySorted Z.lt targets ->
  (forall x, x ∈ targets -> 0 <= x < getReferenceCount sk) ->
  StronglySorted Z.lt (PairOutput.index <$> acc) ->
  (forall a x, a ∈ PairOutput.index <$> acc -> x ∈ targets -> a < x) ->
  exists ps, scoreTargets input targets acc = Ok ps /\
             StronglySorted Z.lt (PairOutput.index <$> ps).
Proof.
  induction targets as [| i rest IH]; intros acc Hs Hr Hacc Hlt.
  - exists acc. split; [reflexivity | assumption].
  - apply StronglySorted_inv in Hs. destruct Hs as [Hs Hi].
    rewrite Forall_forall in Hi.
    destruct (getReference_in_range sk q Hq) as [rq Hrq].
    destruct (getReference_in_range sk i) as [ri Hri].
    { apply Hr. apply elem_of_cons. tauto. }
    destruct (compareSketches_returns PairOutput.indeterminate rq ri
                (minHashesPerWindow sk) (kmerSize sk) (kmerSpace sk)
                (in_maxDistance input) (in_maxPValue input))
      as (b & out & Hcmp).
    { apply Hwf. }
    { pose proof (getReference_fits q rq Hrq).
      pose proof (getReference_fits i ri Hri). lia. }
    cbn [scoreTargets]. fold sk q. rewrite Hrq, Hri. cbn [bind].
    rewrite Hcmp. cbn [bind fst snd].
    apply IH.
    + exact Hs.
    + intros x Hx. apply Hr. apply elem_of_cons. tauto.
    + destruct b; [| exact Hacc].
      rewrite fmap_app. apply StronglySorted_app.
      split; [| split; [exact Hacc | repeat constructor]].
      intros a x Ha Hx. apply list_elem_of_singleton in Hx. subst x.
      apply Hlt; [exact Ha | apply elem_of_cons; tauto].
    + intros a x Ha Hx. destruct b.
      * rewrite fmap_app, elem_of_app in Ha. destruct Ha as [Ha | Ha].
        -- apply Hlt; [exact Ha | apply elem_of_cons; tauto].
        -- apply list_elem_of_singleton in Ha. subst a. now apply Hi.
      * apply Hlt; [exact Ha | apply elem_of_cons; tauto].
Qed.
End ScoreFacts.

(** Scoring appends, in the order of the targets, the records of the
    targets that are accepted. *)
Lemma scoreTargets_omap `{Externals} (input : PairwiseInput)
    (targets : list Z) : forall acc ps,
  scoreTargets input targets acc = Ok ps ->
  ps = acc ++ omap (acceptedRecord input) targets.
Proof.
  induction targets as [| i rest IH]; intros acc ps Hrun.
  - simpl in Hrun. injection Hrun as <-. now rewrite app_nil_r.
  - cbn [scoreTargets] in Hrun. cbn [omap list_omap]. unfold acceptedRecord at 1.
    cbv zeta.
    destruct (getReference (in_sketch input) (in_index input))
      as [rq | | |]; cbn [bind] in Hrun; try discriminate Hrun.
    destruct (getReference (in_sketch input) i) as [ri | | |];
      cbn [bind] in Hrun; try discriminate Hrun.
    destruct (compareSketches PairOutput.indeterminate rq ri _ _ _ _ _)
      as [[b o] | | |]; cbn [bind fst snd] in Hrun; try discriminate Hrun.
    rewrite (IH _ ps Hrun). destruct b.
    + now rewrite <- app_assoc.
    + reflexivity.
Qed.

(** C8.  For a query of the collection, [search] ends normally; its pairs
    are, in the ascending order of the duplicate-free candidate set, the
    records of the candidates that [compareSketches] accepts, each under
    the index of its candidate; so the pairs are in strictly ascending
    order of reference index. *)
Theorem search_pairs_ascending `{Externals} (input : PairwiseInput) :
  0 <= in_index input < getReferenceCount (in_sketch input) ->
  wfSketch (in_sketch input) ->
  wfTable (in_hashTable input) ->
  exists out targets,
    search input = Ok out /\
    out_index out = in_index input /\
    searchTargets input = Ok targets /\
    StronglySorted Z.lt targets /\
    pairs out = omap (acceptedRecord input) targets /\
    StronglySorted Z.lt (PairOutput.index <$> pairs out).
Proof.
  intros Hq Hsk Ht.
  destruct (searchTargets_spec input Hq) as (targets & Hrun & Hs & Hm).
  destruct (scoreTargets_sorted input Hq Hsk targets [] Hs)
    as (ps & Hscore & Hsorted).
  - intros x Hx. apply Hm in Hx. destruct Hx as [Hlt (h & _ & Hx)].
    apply (wfTable_listFor _ _ _ Ht) in Hx. lia.
  - constructor.
  - intros a x Ha. now apply elem_of_nil in Ha.
  - exists {| out_sketch := in_sketch input; out_index := in_index input;
              pairs := ps |}, targets.
    split.
    { unfold search. rewrite Hrun. cbn [bind]. rewrite Hscore. reflexivity. }
    split; [reflexivity |]. split; [exact Hrun |]. split; [exact Hs |].
    split; [| exact Hsorted].
    cbn [pairs]. now rewrite (scoreTargets_omap input targets [] ps Hscore).
Qed.

(** ** Table output *)

(** C9: the table of two sequences with the same hashes.  The header
    names the columns [a] and [b]; the row of query [b] holds a blank
    first cell and the distance to [a] in the second, under the column of
    [b] itself, where the specification has one cell holding the
    distance.  And in a run of two rounds query 1 is submitted, and its
    row written, once per round. *)
Theorem writeOutput_table_row :
  (do t <~ fillHashTable Sample.twoRefs ∅ 4 0 2 in
   @search Sample.routines (Sample.workItem1 t)) = Ok Sample.result1 /\
  writeOutput Sample.result1 true
    = Ok [Str "b"; Tab; Tab; Dbl 0%float; Endl] /\
  tableHeader Sample.twoRefs
    = Ok [Str "#query"; Tab; Str "a"; Tab; Str "b"; Endl] /\
  fields [Str "#query"; Tab; Str "a"; Tab; Str "b"; Endl]
    = [[Str "#query"]; [Str "a"]; [Str "b"]] /\
  fields [Str "b"; Tab; Tab; Dbl 0%float; Endl]
    = [[Str "b"]; []; [Dbl 0%float]] /\
  specRowFields "b" 1 (pairs Sample.result1) = [[Str "b"]; [Dbl 0%float]] /\
  roundRanges hashTableSize 4 (2 ^ 25) = [(0, 2); (2, 4)] /\
  submitted hashTableSize 4 (2 ^ 25) = [1; 1; 2; 3].
Proof. repeat split; vm_compute; reflexivity. Qed.

(** ** The theorems on the small collection *)

Lemma fillHashTable_index_witness :
  exists t : HashTable,
    fillHashTable Sample.collection ∅ 4 0 2 = Ok t /\
    (forall h i, i ∈ listFor t h
                 <-> 0 <= i < 2 /\ h ∈ keysOf Sample.collection i) /\
    (forall h, StronglySorted Z.le (listFor t h)).
Proof.
  apply (fillHashTable_index Sample.collection 4 0 2).
  - lia.
  - lia.
  - vm_compute. discriminate.
  - reflexivity.
Defined.

Lemma compareSketches_merge_bounds_witness :
  exists common denom,
    mergeCounts true 4 (map Sample.h [1; 2; 3; 4]) (map Sample.h [3; 5; 6; 7])
      = Ok (common, denom) /\
    (common, denom)
      = specCounts true 4 (map Sample.h [1; 2; 3; 4])
          (map Sample.h [3; 5; 6; 7]) /\
    0 <= common <= denom /\ denom <= 4.
Proof.
  apply (compareSketches_merge_bounds true 4).
  - lia.
  - reflexivity.
Defined.

Lemma compareSketches_accept_iff_witness :
  exists common denom b out',
    mergeCounts true 4 (map Sample.h [1; 2; 3; 4]) (map Sample.h [3; 5; 6; 7])
      = Ok (common, denom) /\
    @compareSketches Sample.routines PairOutput.indeterminate
      (Sample.reference "a" 12 [1; 2; 3; 4])
      (Sample.reference "c" 12 [3; 5; 6; 7]) 4 9 512000000000%float
      1%float 1%float = Ok (b, out') /\
    (b = false <->
       (1 <? @distanceOf Sample.routines common denom 9)%float = true \/
       (@distanceOf Sample.routines common denom 9 =? 1)%float = true \/
       (1 <? 0)%float = true) /\
    (b = true ->
       out' = {| PairOutput.numer := common; PairOutput.denom := denom;
                 PairOutput.distance :=
                   @distanceOf Sample.routines common denom 9;
                 PairOutput.pValue := 0%float;
                 PairOutput.index := 0 |}).
Proof.
  apply (@compareSketches_accept_iff Sample.routines
           PairOutput.indeterminate
           (Sample.reference "a" 12 [1; 2; 3; 4])
           (Sample.reference "c" 12 [3; 5; 6; 7]) 4 9 512000000000%float
           1%float 1%float).
  - lia.
  - reflexivity.
  - intros x lr lq ks n. reflexivity.
  - reflexivity.
Defined.


(** Query 2 of the small collection: both candidates are accepted. *)
Lemma search_pairs_ascending_witness :
  exists out,
    @search Sample.routines Sample.workItem = Ok out /\
    PairOutput.index <$> pairs out = [0; 1].
Proof.
  destruct (@search_pairs_ascending Sample.routines Sample.workItem)
    as (out & targets & Hrun & _ & Hst & _ & Hp & _).
  - vm_compute. split; [discriminate | reflexivity].
  - split; [vm_compute; discriminate |].
    repeat constructor; vm_compute; reflexivity.
  - unfold wfTable. apply (bool_decide_unpack _). vm_compute. exact I.
  - exists out. split; [exact Hrun |].
    vm_compute in Hst. injection Hst as <-.
    rewrite Hp. vm_compute. reflexivity.
Defined.

Lemma compareSketches_empty_witness :
  @compareSketches Sample.routines PairOutput.indeterminate
    (Sample.reference "x" 0 []) (Sample.reference "y" 0 []) 400 9
    512000000000%float 1%float 1%float
  = Ok (true,
        {| PairOutput.numer := 0; PairOutput.denom := 0;
           PairOutput.distance := 0%float; PairOutput.pValue := 0%float;
           PairOutput.index := 0 |}).
Proof.
  destruct (@compareSketches_empty Sample.routines PairOutput.indeterminate
              (Sample.reference "x" 0 []) (Sample.reference "y" 0 [])
              400 9 512000000000%float 1%float 1%float)
    as (_ & _ & _ & _ & Hcmp).
  - reflexivity.
  - reflexivity.
  - reflexivity.
  - exact Hcmp.
Defined.

(** * Further properties of the code *)

(** ** Rounds *)

(** X1.  When [R * S] is below four times the slot budget there is a
    single round, it is the whole collection, and every query index from
    1 to [R - 1] is submitted exactly once, in ascending order. *)
Theorem single_round_complete (B R S : Z) :
  0 < B -> 1 <= R < two64 -> 0 <= S -> R * S < two64 -> R * S < 4 * B ->
  roundCount B R S = 1 /\
  roundRanges B R S = [(0, R)] /\
  submitted B R S = seqZ 1 (R - 1).
Proof.
  intros HB HR HS Hprod Hsmall.
  assert (Hq : 0 <= R * S / B / 2 <= 1).
  { split; [apply Z.div_pos; [apply Z.div_pos |]; nia |].
    assert (R * S / B < 4) by (apply Z.div_lt_upper_bound; lia).
    assert (R * S / B / 2 < 2) by (apply Z.div_lt_upper_bound; lia).
    lia. }
  assert (Hint : R * S / B / 2 < two31) by (unfold two31; lia).
  assert (Hc : roundCount B R S = 1).
  { rewrite roundCount_in_range by lia. unfold specRounds. lia. }
  assert (Hs : roundSize B R S = R).
  { rewrite roundSize_in_range by lia. rewrite Hc. apply Z.div_1_r. }
  assert (Hr : roundRanges B R S = [(0, R)]).
  { unfold roundRanges. rewrite Hc. change (seqZ 0 1) with [0]. simpl.
    rewrite (roundRange_in_range B R S HB HR HS Hprod Hint 0)
      by (rewrite Hc; lia).
    rewrite Hs. f_equal. f_equal; lia. }
  split; [exact Hc |]. split; [exact Hr |].
  unfold submitted. rewrite Hr. simpl. unfold roundQueries. simpl.
  apply app_nil_r.
Qed.

Lemma single_round_complete_witness :
  roundCount hashTableSize 1000 400 = 1 /\
  roundRanges hashTableSize 1000 400 = [(0, 1000)] /\
  submitted hashTableSize 1000 400 = seqZ 1 999.
Proof.
  apply (single_round_complete hashTableSize 1000 400).
  - reflexivity.
  - split; [lia | reflexivity].
  - lia.
  - reflexivity.
  - reflexivity.
Defined.

(** X2.  While nothing overflows, the rounds cover exactly the indices
    below [R - R mod rounds]: the last [R mod rounds] references belong to
    no round. *)
Theorem rounds_cover_prefix (B R S x : Z) :
  0 < B -> 1 <= R < two64 -> 0 <= S ->
  R * S < two64 -> R * S / B / 2 < two31 ->
  (covered B R S x = true <-> 0 <= x < R - R mod roundCount B R S).
Proof.
  intros HB HR HS Hprod Hint.
  rewrite (covered_iff B R S HB HR HS Hprod Hint).
  pose proof (roundCount_bounds B R S HB (proj1 HR) HS Hprod Hint) as Hb.
  rewrite (roundSize_in_range B R S HB (proj1 HR) HS Hprod Hint).
  pose proof (Z.div_mod R (roundCount B R S) ltac:(lia)) as Hdm.
  lia.
Qed.

Lemma rounds_cover_prefix_witness :
  covered hashTableSize 503317 400 503315 = true <->
  0 <= 503315 < 503317 - 503317 mod roundCount hashTableSize 503317 400.
Proof.
  apply (rounds_cover_prefix hashTableSize 503317 400 503315).
  - reflexivity.
  - split; [lia | reflexivity].
  - lia.
  - reflexivity.
  - reflexivity.
Defined.

(** X3.  While nothing overflows, there are [rounds] ranges; the first
    starts at 0, each is [roundSize] wide, each starts where the one
    before it ends, and none reaches past [R]. *)
Theorem roundRanges_contiguous (B R S : Z) :
  0 < B -> 1 <= R < two64 -> 0 <= S ->
  R * S < two64 -> R * S / B / 2 < two31 ->
  List.length (roundRanges B R S) = Z.to_nat (roundCount B R S) /\
  (forall rg, roundRanges B R S !! 0%nat = Some rg -> fst rg = 0) /\
  (forall n rg, roundRanges B R S !! n = Some rg ->
     snd rg - fst rg = roundSize B R S /\ 0 <= fst rg /\ snd rg <= R) /\
  (forall n rg rg', roundRanges B R S !! n = Some rg ->
     roundRanges B R S !! Datatypes.S n = Some rg' -> fst rg' = snd rg).
Proof.
  intros HB HR HS Hprod Hint.
  pose proof (roundCount_bounds B R S HB (proj1 HR) HS Hprod Hint) as Hb.
  pose proof (rsize_total B R S HB HR HS Hprod Hint) as [Hs Ht].
  assert (Hlen : List.length (roundRanges B R S)
                 = Z.to_nat (roundCount B R S)).
  { unfold roundRanges. now rewrite length_map, length_seqZ. }
  assert (Hl : forall n rg, roundRanges B R S !! n = Some rg ->
            Z.of_nat n < roundCount B R S /\
            rg = (Z.of_nat n * roundSize B R S,
                  (Z.of_nat n + 1) * roundSize B R S)).
  { intros n rg Hn.
    assert (Hlt : Z.of_nat n < roundCount B R S).
    { apply lookup_lt_Some in Hn. lia. }
    split; [exact Hlt |].
    rewrite (roundRanges_lookup B R S HB HR HS Hprod Hint n Hlt) in Hn.
    now injection Hn. }
  split; [exact Hlen |]. split; [| split].
  - intros rg H0. apply Hl in H0. destruct H0 as [_ ->]. simpl. lia.
  - intros n rg Hn. apply Hl in Hn. destruct Hn as [Hlt ->]. simpl. nia.
  - intros n rg rg' Hn Hn'. apply Hl in Hn. apply Hl in Hn'.
    destruct Hn as [_ ->]. destruct Hn' as [_ ->]. simpl. lia.
Qed.

Lemma roundRanges_contiguous_witness :
  List.length (roundRanges hashTableSize 503317 400) = 3%nat.
Proof.
  destruct (roundRanges_contiguous hashTableSize 503317 400) as [Hlen _].
  - reflexivity.
  - split; [lia | reflexivity].
  - lia.
  - reflexivity.
  - reflexivity.
  - rewrite Hlen. reflexivity.
Defined.

(** X4.  While nothing overflows, the slots one round asks for,
    [roundSize * S], stay below four times the budget. *)
Theorem round_slots_bounded (B R S : Z) :
  0 < B -> 1 <= R < two64 -> 0 <= S ->
  R * S < two64 -> R * S / B / 2 < two31 ->
  roundSize B R S * S < 4 * B.
Proof.
  intros HB HR HS Hprod Hint.
  pose proof (rsize_total B R S HB HR HS Hprod Hint) as [Hs Ht].
  rewrite (roundCount_in_range B R S HB (proj1 HR) HS Hprod Hint) in Ht.
  unfold specRounds in Ht.
  pose proof (Z.div_mod (R * S) B ltac:(lia)) as H1.
  pose proof (Z.mod_pos_bound (R * S) B HB) as H1'.
  pose proof (Z.div_mod (R * S / B) 2 ltac:(lia)) as H2.
  pose proof (Z.mod_pos_bound (R * S / B) 2 ltac:(lia)) as H2'.
  assert (0 <= R * S / B) by (apply Z.div_pos; nia).
  set (rs := roundSize B R S) in *.
  set (q1 := R * S / B) in *. set (q2 := q1 / 2) in *.
  destruct (Z_le_gt_dec q2 1) as [Hle | Hgt].
  - replace (1 `max` q2) with 1 in Ht by lia.
    assert (rs * S <= R * S) by nia. nia.
  - replace (1 `max` q2) with q2 in Ht by lia.
    assert (Hm : q2 * (rs * S) <= R * S) by nia.
    assert (Hu : R * S < B * (2 * q2 + 2)) by nia.
    assert (Hv : B * (2 * q2 + 2) <= q2 * (3 * B)) by nia.
    nia.
Qed.

Lemma round_slots_bounded_witness :
  roundSize hashTableSize 503317 400 * 400 < 4 * hashTableSize.
Proof.
  apply (round_slots_bounded hashTableSize 503317 400).
  - reflexivity.
  - split; [lia | reflexivity].
  - lia.
  - reflexivity.
  - reflexivity.
Defined.

Lemma count_seqZ (j m len : Z) :
  size (List.filter (Z.eqb j) (seqZ m len))
  = if (m <=? j) && (j <? m + len) then 1 else 0.
Proof.
  destruct (Z_le_gt_dec len 0) as [Hle | Hgt].
  { rewrite seqZ_nil by lia. simpl.
    destruct (Z.leb_spec m j), (Z.ltb_spec j (m + len)); simpl;
      reflexivity || lia. }
  rewrite <- (Z2Nat.id len) by lia. generalize (Z.to_nat len) as n.
  clear len Hgt. intros n. induction n as [| n IH].
  - rewrite seqZ_nil by lia.
    destruct (Z.leb_spec m j), (Z.ltb_spec j (m + Z.of_nat 0)); simpl;
      reflexivity || lia.
  - rewrite seqZ_S, List.filter_app. unfold size in *. rewrite length_app.
    rewrite Nat2Z.inj_add, IH. simpl.
    destruct (Z.eqb_spec j (m + Z.of_nat n));
      destruct (Z.leb_spec m j), (Z.ltb_spec j (m + Z.of_nat n)),
        (Z.ltb_spec j (m + Z.of_nat (Datatypes.S n))); simpl; lia.
Qed.

Section SubmittedFacts.
Variables B R S : Z.
Hypothesis HB : 0 < B.
Hypothesis HR : 1 <= R < two64.
Hypothesis HS : 0 <= S.
Hypothesis Hprod : R * S < two64.
Hypothesis Hint : R * S / B / 2 < two31.
Hypothesis Hfit : roundCount B R S <= R.

Lemma roundSize_pos : 0 < roundSize B R S.
Proof.
  pose proof (roundCount_bounds B R S HB (proj1 HR) HS Hprod Hint) as Hb.
  rewrite roundSize_in_range by lia.
  apply Z.div_str_pos. lia.
Qed.

(** How often [j] occurs among the queries of the first [n] rounds. *)
Lemma count_submitted_prefix (j : Z) (n : nat) :
  1 <= j -> Z.of_nat n <= roundCount B R S ->
  size (List.filter (Z.eqb j)
          (flat_map roundQueries
             (map (roundRange R (roundSize B R S)) (seqZ 0 (Z.of_nat n)))))
  = Z.max 0 (Z.of_nat n - j / roundSize B R S).
Proof.
  intros Hj. pose proof roundSize_pos as Hpos.
  assert (Hdiv : 0 <= j / roundSize B R S) by (apply Z.div_pos; lia).
  induction n as [| n IH]; intros Hn.
  - rewrite seqZ_nil by lia. simpl. unfold size. simpl. lia.
  - rewrite seqZ_S, map_app, flat_map_app, List.filter_app.
    unfold size in *. rewrite length_app, Nat2Z.inj_add, IH by lia.
    simpl. rewrite app_nil_r.
    rewrite (roundRange_in_range B R S HB HR HS Hprod Hint) by lia.
    unfold roundQueries. simpl. rewrite (Z.add_0_l (Z.of_nat n)).
    pose proof (count_seqZ j 1
                  ((Z.of_nat n + 1) * roundSize B R S - 1)) as Hc.
    unfold size in Hc. rewrite Hc.
    destruct (Z.leb_spec 1 j); [| lia]. simpl.
    destruct (Z.ltb_spec j
                (1 + ((Z.of_nat n + 1) * roundSize B R S - 1)))
      as [Hlt | Hge].
    + assert (j / roundSize B R S < Z.of_nat n + 1).
      { apply Z.div_lt_upper_bound; lia. }
      lia.
    + assert (Z.of_nat n + 1 <= j / roundSize B R S).
      { apply Z.div_le_lower_bound; lia. }
      lia.
Qed.
End SubmittedFacts.

(** X5.  While nothing overflows and there are at least as many
    references as rounds, query [j >= 1] is submitted once in every round
    from its own on: [rounds - floor(j / roundSize)] times in all, and not
    at all from [rounds * roundSize] on.  Query 0 is never submitted. *)
Theorem submitted_multiplicity (B R S j : Z) :
  0 < B -> 1 <= R < two64 -> 0 <= S ->
  R * S < two64 -> R * S / B / 2 < two31 ->
  roundCount B R S <= R ->
  (1 <= j ->
   size (List.filter (Z.eqb j) (submitted B R S))
   = Z.max 0 (roundCount B R S - j / roundSize B R S)) /\
  0 ∉ submitted B R S.
Proof.
  intros HB HR HS Hprod Hint Hfit.
  pose proof (roundCount_bounds B R S HB (proj1 HR) HS Hprod Hint) as Hb.
  split.
  - intros Hj.
    pose proof (count_submitted_prefix B R S HB HR HS Hprod Hint Hfit j
                  (Z.to_nat (roundCount B R S)) Hj ltac:(lia)) as Hc.
    rewrite Z2Nat.id in Hc by lia. exact Hc.
  - unfold submitted. intros Hin.
    apply list_elem_of_In, in_flat_map in Hin.
    destruct Hin as (rg & _ & Hin).
    apply list_elem_of_In, elem_of_seqZ in Hin. lia.
Qed.

Lemma submitted_multiplicity_witness :
  size (List.filter (Z.eqb 1) (submitted hashTableSize 4 (2 ^ 25))) = 2.
Proof.
  destruct (submitted_multiplicity hashTableSize 4 (2 ^ 25) 1) as [Hc _].
  - reflexivity.
  - split; [lia | reflexivity].
  - lia.
  - reflexivity.
  - reflexivity.
  - vm_compute. discriminate.
  - rewrite Hc by lia. reflexivity.
Defined.

(** ** The work items of a run *)

Lemma roundRanges_within (B R S : Z) (rg : Z * Z) :
  0 < B -> 1 <= R < two64 -> 0 <= S ->
  R * S < two64 -> R * S / B / 2 < two31 ->
  rg ∈ roundRanges B R S -> 0 <= fst rg <= snd rg /\ snd rg <= R.
Proof.
  intros HB HR HS Hprod Hint Hin.
  pose proof (rsize_total B R S HB HR HS Hprod Hint) as [Hs Ht].
  unfold roundRanges in Hin. apply list_elem_of_fmap in Hin.
  destruct Hin as (i & -> & Hi). apply elem_of_seqZ in Hi.
  rewrite (roundRange_in_range B R S HB HR HS Hprod Hint) by lia.
  simpl. nia.
Qed.

Section RunFacts.
Variables (B : Z) (sk : Sketch) (distanceMax pValueMax : float).
Hypothesis HB : B <> 0.

(** The items of a list of rounds that lie inside the collection: the
    tables are built, and the items are the queries of each round over
    the table of that round. *)
Lemma roundsItems_spec (rgs : list (Z * Z)) :
  (forall rg, rg ∈ rgs ->
     0 <= fst rg <= snd rg /\ snd rg <= getReferenceCount sk /\
     snd rg < two31) ->
  exists items,
    roundsItems B sk distanceMax pValueMax rgs = Ok items /\
    in_index <$> items = flat_map roundQueries rgs /\
    forall item, item ∈ items ->
      exists rg t, rg ∈ rgs /\
        fillHashTable sk ∅ B (fst rg) (snd rg) = Ok t /\
        in_index item ∈ roundQueries rg /\
        in_sketch item = sk /\ in_hashTable item = t.
Proof.
  induction rgs as [| rg rest IH]; intros Hall.
  - exists []. split; [reflexivity |]. split; [reflexivity |].
    intros item Hin. now apply elem_of_nil in Hin.
  - destruct IH as (later & Hrun & Hidx & Hitems).
    { intros rg' Hin. apply Hall. apply elem_of_cons. tauto. }
    destruct (Hall rg) as (Hse & Hc & Hi); [apply elem_of_cons; tauto |].
    destruct (fillHashTable_lists sk B (fst rg) (snd rg) HB Hse Hc Hi)
      as (t & Hfill & _).
    exists (map (workItem sk distanceMax pValueMax t B) (roundQueries rg)
            ++ later).
    split; [| split].
    + cbn [roundsItems]. unfold roundItems. rewrite Hfill. cbn [bind].
      rewrite Hrun. reflexivity.
    + rewrite fmap_app, Hidx. cbn [flat_map]. f_equal.
      generalize (roundQueries rg). intros l.
      induction l as [| j l IHl]; [reflexivity |].
      cbn. f_equal. exact IHl.
    + intros item Hin. apply elem_of_app in Hin.
      destruct Hin as [Hin | Hin].
      * apply list_elem_of_fmap in Hin. destruct Hin as (j & -> & Hj).
        exists rg, t. split; [apply elem_of_cons; tauto |].
        split; [exact Hfill |]. split; [exact Hj |]. split; reflexivity.
      * destruct (Hitems item Hin) as (rg' & t' & Hrg & Hrest).
        exists rg', t'. split; [apply elem_of_cons; tauto | exact Hrest].
Qed.
End RunFacts.

(** X6.  While nothing overflows, a run builds every table and its items
    are the submitted queries in order; each item lies in the round
    [start, end) whose table it carries or below it, and its candidates
    are exactly the references of that round below the query that share a
    hash value with it.  So two references of different rounds are never
    compared. *)
Theorem run_candidates_within_round (B S : Z) (sk : Sketch)
    (distanceMax pValueMax : float) :
  0 < B -> 1 <= getReferenceCount sk < two31 -> 0 <= S ->
  getReferenceCount sk * S < two64 ->
  getReferenceCount sk * S / B / 2 < two31 ->
  exists items,
    runItems B sk S distanceMax pValueMax = Ok items /\
    in_index <$> items = submitted B (getReferenceCount sk) S /\
    forall item, item ∈ items ->
      exists rg targets,
        rg ∈ roundRanges B (getReferenceCount sk) S /\
        1 <= in_index item < snd rg /\
        searchTargets item = Ok targets /\
        forall x, x ∈ targets
                  <-> fst rg <= x < in_index item /\
                      sharesHash sk x (in_index item).
Proof.
  intros HB HR HS Hprod Hint.
  assert (HR' : 1 <= getReferenceCount sk < two64).
  { unfold two31, two64 in *. lia. }
  destruct (roundsItems_spec B sk distanceMax pValueMax ltac:(lia)
              (roundRanges B (getReferenceCount sk) S))
    as (items & Hrun & Hidx & Hitems).
  { intros rg Hin.
    pose proof (roundRanges_within B _ S rg HB HR' HS Hprod Hint Hin).
    lia. }
  exists items. split; [exact Hrun |]. split; [exact Hidx |].
  intros item Hin.
  destruct (Hitems item Hin) as (rg & t & Hrg & Hfill & Hq & Hsk & Ht).
  pose proof (roundRanges_within B _ S rg HB HR' HS Hprod Hint Hrg)
    as [Hse Hc].
  unfold roundQueries in Hq. apply elem_of_seqZ in Hq.
  assert (Hqr : 0 <= in_index item < getReferenceCount (in_sketch item)).
  { rewrite Hsk. lia. }
  destruct (searchTargets_spec item Hqr) as (targets & Hst & _ & Hm).
  destruct (fillHashTable_index_lists sk B (fst rg) (snd rg) ltac:(lia)
              Hse Hc ltac:(lia)) as (t' & Hfill' & Hl).
  rewrite Hfill in Hfill'. injection Hfill' as <-.
  exists rg, targets. split; [exact Hrg |]. split; [lia |].
  split; [exact Hst |].
  intros x. rewrite Hm, Hsk, Ht. unfold sharesHash. split.
  - intros [Hlt (h & Hh & Hx)]. apply Hl in Hx. destruct Hx as [Hr Hk].
    split; [lia |]. now exists h.
  - intros [Hr (h & Hk & Hh)]. split; [lia |]. exists h.
    split; [exact Hh |]. apply Hl. split; [lia | exact Hk].
Qed.

Lemma run_candidates_within_round_witness :
  exists items,
    runItems 2 Sample.collection 4 1%float 1%float = Ok items /\
    in_index <$> items = submitted 2 3 4.
Proof.
  destruct (run_candidates_within_round 2 4 Sample.collection
              1%float 1%float) as (items & Hrun & Hidx & _).
  - reflexivity.
  - vm_compute. split; [discriminate | reflexivity].
  - lia.
  - reflexivity.
  - reflexivity.
  - exists items. split; [exact Hrun | exact Hidx].
Defined.

(** ** More on the inverted index *)

Section IndexDomFacts.
Variable sk : Sketch.

Lemma insertHashes_dom w i hs (t : HashTable) k :
  is_Some (insertHashes w i hs t !! k)
  <-> is_Some (t !! k) \/ k ∈ hashKey w <$> hs.
Proof.
  unfold insertHashes. revert t.
  induction hs as [| x hs IH]; intros t; cbn [foldl].
  - rewrite fmap_nil, elem_of_nil. tauto.
  - rewrite IH, fmap_cons, elem_of_cons. unfold push_back_at.
    destruct (decide (hashKey w x = k)) as [-> | Hne].
    + rewrite lookup_insert_eq. split; [intros _ | intros _; left; eauto].
      right. now left.
    + rewrite lookup_insert_ne by exact Hne.
      split; [tauto | intros [? | [? | ?]]; [tauto | congruence | tauto]].
Qed.

Lemma fillLoop_dom (n : nat) : forall i (t t' : HashTable),
  0 <= i -> i + Z.of_nat n < two31 ->
  fillLoop n sk (i + Z.of_nat n) i t = Ok t' ->
  forall k, is_Some (t' !! k)
            <-> is_Some (t !! k) \/
                exists x, i <= x < i + Z.of_nat n /\ k ∈ keysOf sk x.
Proof.
  induction n as [| n IH]; intros i t t' H0 Hi Hrun k.
  - simpl in Hrun. rewrite of_int_small in Hrun by lia.
    destruct (Z.ltb_spec i (i + Z.of_nat 0)); [lia |].
    injection Hrun as <-. split; [tauto |].
    intros [? | (x & Hx & _)]; [assumption | lia].
  - cbn [fillLoop] in Hrun. rewrite of_int_small in Hrun by lia.
    destruct (Z.ltb_spec i (i + Z.of_nat (Datatypes.S n))); [| lia].
    destruct (getReference sk i) as [r | | |] eqn:Hr;
      cbn [bind] in Hrun; try discriminate Hrun.
    rewrite to_int_small in Hrun by lia.
    replace (i + Z.of_nat (Datatypes.S n)) with (i + 1 + Z.of_nat n)
      in Hrun by lia.
    rewrite (IH (i + 1) _ t' ltac:(lia) ltac:(lia) Hrun k).
    rewrite insertHashes_dom, <- (keysOf_Ok sk i r Hr). split.
    + intros [[? | Hk] | (x & Hx & Hk)]; [tauto | |].
      * right. exists i. split; [lia | exact Hk].
      * right. exists x. split; [lia | exact Hk].
    + intros [? | (x & Hx & Hk)]; [tauto |].
      destruct (Z.eq_dec x i) as [-> | Hne]; [tauto |].
      right. exists x. split; [lia | exact Hk].
Qed.

Lemma occupancyPass_dom (n : Z) (t : HashTable) k :
  is_Some (occupancyPass n t !! k) <-> is_Some (t !! k) \/ 0 <= k < n.
Proof.
  unfold occupancyPass.
  assert (Hgen : forall ks (t0 : HashTable),
            is_Some (foldl touch t0 ks !! k)
            <-> is_Some (t0 !! k) \/ k ∈ ks).
  { induction ks as [| x ks IH]; intros t0; simpl.
    - rewrite elem_of_nil. tauto.
    - rewrite IH, elem_of_cons. unfold touch.
      destruct (t0 !! x) as [l |] eqn:Hx.
      + split; [tauto | intros [? | [-> | ?]]; [tauto | | tauto]].
        left. rewrite Hx. eauto.
      + destruct (decide (x = k)) as [-> | Hne].
        * rewrite lookup_insert_eq. split; [tauto | intros _; left; eauto].
        * rewrite lookup_insert_ne by exact Hne.
          split; [tauto | intros [? | [? | ?]]; [tauto | congruence | tauto]]. }
  rewrite Hgen, elem_of_seqZ. split; intros [? | ?]; try tauto; right; lia.
Qed.

Lemma filter_eq_NoDup (h : Z) (l : list Z) :
  NoDup l ->
  filter (fun k => k = h) l = [] \/ filter (fun k => k = h) l = [h].
Proof.
  induction 1 as [| x l Hx Hnd IH]; [now left |].
  rewrite filter_cons. destruct (decide (x = h)) as [-> | Hne].
  - right. f_equal. destruct IH as [IH | IH]; [exact IH |].
    exfalso. apply Hx.
    assert (Hin : h ∈ filter (fun k => k = h) l)
      by (rewrite IH; apply list_elem_of_singleton; reflexivity).
    apply list_elem_of_filter in Hin. tauto.
  - exact IH.
Qed.

Lemma scan_strictly_sorted h (n : nat) : forall m,
  (forall i, m <= i < m + Z.of_nat n -> NoDup (keysOf sk i)) ->
  StronglySorted Z.lt (flat_map (entries sk h) (seqZ m (Z.of_nat n))).
Proof.
  induction n as [| n IH]; intros m Hnd.
  - rewrite seqZ_nil by lia. constructor.
  - rewrite seqZ_cons by lia. cbn [flat_map].
    replace (Z.pred (Z.of_nat (Datatypes.S n))) with (Z.of_nat n) by lia.
    assert (Hrest : Forall (Z.lt m)
              (flat_map (entries sk h) (seqZ (Z.succ m) (Z.of_nat n)))).
    { apply Forall_forall. intros x Hx. apply elem_of_scan in Hx. lia. }
    specialize (IH (Z.succ m) ltac:(intros i Hi; apply Hnd; lia)).
    unfold entries at 1.
    destruct (filter_eq_NoDup h (keysOf sk m)) as [-> | ->];
      [apply Hnd; lia | exact IH |].
    simpl. now constructor.
Qed.
End IndexDomFacts.

(** X7.  After [fillHashTable] with a positive table size on an empty
    table, over a range of existing references that ends below 2^31, the
    table has an entry for key [k] exactly when [k] is a slot below
    [hashTableSize] (these are created, empty, by the pass over the
    slots) or a hash value of a sketch of the range. *)
Theorem fillHashTable_entries (sk : Sketch) (hashTableSize start end_ : Z) :
  0 < hashTableSize ->
  0 <= start <= end_ -> end_ <= getReferenceCount sk -> end_ < two31 ->
  exists t : HashTable,
    fillHashTable sk ∅ hashTableSize start end_ = Ok t /\
    forall k, is_Some (t !! k)
              <-> 0 <= k < hashTableSize \/
                  exists i, start <= i < end_ /\ k ∈ keysOf sk i.
Proof.
  intros Hsz Hse Hc Hi.
  destruct (fillLoop_spec sk (Z.to_nat (end_ - start)) start ∅)
    as (t1 & Hrun & _); [lia | lia | lia |].
  pose proof (fillLoop_dom sk (Z.to_nat (end_ - start)) start ∅ t1
                ltac:(lia) ltac:(lia) Hrun) as Hdom.
  replace (start + Z.of_nat (Z.to_nat (end_ - start))) with end_ in *
    by lia.
  exists (occupancyPass hashTableSize t1). split.
  - rewrite fillHashTable_unfold by lia.
    rewrite Hrun. reflexivity.
  - intros k. rewrite occupancyPass_dom, Hdom, lookup_empty.
    split.
    + intros [[Hn | ?] | ?]; [| tauto | tauto].
      destruct Hn as [? Hn]. discriminate Hn.
    + tauto.
Qed.

Lemma fillHashTable_entries_witness :
  exists t : HashTable,
    fillHashTable Sample.collection ∅ 4 0 2 = Ok t /\
    forall k, is_Some (t !! k)
              <-> 0 <= k < 4 \/
                  exists i, 0 <= i < 2 /\ k ∈ keysOf Sample.collection i.
Proof.
  apply (fillHashTable_entries Sample.collection 4 0 2).
  - lia.
  - lia.
  - vm_compute. discriminate.
  - reflexivity.
Defined.

(** X8.  With a positive table size and a range of existing references
    that ends below 2^31: when no sketch of the range holds a hash value
    twice, every list of the table is strictly ascending, so a sketch
    index occurs at most once under a hash value. *)
Theorem fillHashTable_lists_strict (sk : Sketch)
    (hashTableSize start end_ : Z) :
  0 < hashTableSize ->
  0 <= start <= end_ -> end_ <= getReferenceCount sk -> end_ < two31 ->
  (forall i, start <= i < end_ -> NoDup (keysOf sk i)) ->
  exists t : HashTable,
    fillHashTable sk ∅ hashTableSize start end_ = Ok t /\
    forall h, StronglySorted Z.lt (listFor t h) /\ NoDup (listFor t h).
Proof.
  intros Hsz Hse Hc Hi Hnd.
  destruct (fillHashTable_lists sk hashTableSize start end_ ltac:(lia)
              Hse Hc Hi) as (t & Hrun & Hl).
  exists t. split; [exact Hrun |].
  intros h. rewrite Hl.
  assert (Hs : StronglySorted Z.lt
                 (flat_map (entries sk h) (seqZ start (end_ - start)))).
  { rewrite <- (Z2Nat.id (end_ - start)) by lia.
    apply scan_strictly_sorted. intros i Hr. apply Hnd. lia. }
  split; [exact Hs | now apply sorted_NoDup].
Qed.

Lemma fillHashTable_lists_strict_witness :
  exists t : HashTable,
    fillHashTable Sample.collection ∅ 4 0 3 = Ok t /\
    forall h, StronglySorted Z.lt (listFor t h) /\ NoDup (listFor t h).
Proof.
  apply (fillHashTable_lists_strict Sample.collection 4 0 3).
  - lia.
  - lia.
  - vm_compute. discriminate.
  - reflexivity.
  - intros i Hi.
    assert (Hc : i = 0 \/ i = 1 \/ i = 2) by lia.
    destruct Hc as [-> | [-> | ->]];
      apply (@bool_decide_unpack _ (NoDup_dec _)); vm_compute; exact I.
Defined.

(** ** More on the merge *)

Section MergeMoreFacts.
Variables (w64 : bool) (sketchSize : Z).

Lemma hashLessThan_asym a b :
  hashLessThan a b w64 = true -> hashLessThan b a w64 = false.
Proof.
  rewrite !hashLessThan_keys. intros H. apply Z.ltb_lt in H.
  apply Z.ltb_ge. lia.
Qed.

Lemma specFinish_comm r q c d :
  specFinish sketchSize r q c d = specFinish sketchSize q r c d.
Proof. unfold specFinish. now rewrite <- !Z.add_assoc, (Z.add_comm (size r)). Qed.

(** The merge does not depend on which list is walked as the reference. *)
Lemma specMerge_comm (r : list hash_u) : forall q c d,
  specMerge w64 sketchSize r q c d = specMerge w64 sketchSize q r c d.
Proof.
  induction r as [| a r' IHr]; intros q c d.
  - now rewrite specMerge_nil_l, specMerge_nil_r, specFinish_comm.
  - revert c d. induction q as [| b q' IHq]; intros c d.
    + now rewrite specMerge_nil_l, specMerge_nil_r, specFinish_comm.
    + rewrite !specMerge_cons.
      destruct (d <? sketchSize); [| reflexivity].
      destruct (hashLessThan a b w64) eqn:Hab.
      * rewrite (hashLessThan_asym a b Hab). apply IHr.
      * destruct (hashLessThan b a w64); [apply IHq | apply IHr].
Qed.

Lemma specMerge_denom_mono (r : list hash_u) : forall q c d,
  d <= snd (specMerge w64 sketchSize r q c d).
Proof.
  assert (Hfin : forall r' q' c d,
            d <= snd (specFinish sketchSize r' q' c d)).
  { intros r' q' c d. unfold specFinish, size.
    destruct (Z.ltb_spec d sketchSize); simpl; lia. }
  induction r as [| a r' IHr]; intros q c d.
  - rewrite specMerge_nil_l. apply Hfin.
  - revert c d. induction q as [| b q' IHq]; intros c d.
    + rewrite specMerge_nil_r. apply Hfin.
    + rewrite specMerge_cons.
      destruct (Z.ltb_spec d sketchSize); [| simpl; lia].
      destruct (hashLessThan a b w64);
        [| destruct (hashLessThan b a w64)].
      * specialize (IHr (b :: q') c (d + 1)). lia.
      * specialize (IHq c (d + 1)). lia.
      * specialize (IHr q' (c + 1) (d + 1)). lia.
Qed.

(** Unless both lists are empty or the capacity is used up, [denom]
    grows. *)
Lemma specMerge_denom_grows r q c d :
  d < sketchSize -> r <> [] \/ q <> [] ->
  d < snd (specMerge w64 sketchSize r q c d).
Proof.
  intros Hd Hne.
  destruct r as [| a r'], q as [| b q'].
  - destruct Hne; contradiction.
  - rewrite specMerge_nil_l. unfold specFinish, size.
    destruct (Z.ltb_spec d sketchSize); [| lia]. simpl. lia.
  - rewrite specMerge_nil_r. unfold specFinish, size.
    destruct (Z.ltb_spec d sketchSize); [| lia]. simpl. lia.
  - rewrite specMerge_cons.
    destruct (Z.ltb_spec d sketchSize); [| lia].
    destruct (hashLessThan a b w64); [| destruct (hashLessThan b a w64)].
    + pose proof (specMerge_denom_mono r' (b :: q') c (d + 1)). lia.
    + pose proof (specMerge_denom_mono (a :: r') q' c (d + 1)). lia.
    + pose proof (specMerge_denom_mono r' q' (c + 1) (d + 1)). lia.
Qed.

(** Lists without a common key leave [common] where it was. *)
Lemma specMerge_disjoint (r : list hash_u) : forall q c d,
  disjointKeys w64 r q -> fst (specMerge w64 sketchSize r q c d) = c.
Proof.
  assert (Hfin : forall r' q' c d,
            fst (specFinish sketchSize r' q' c d) = c).
  { intros r' q' c d. unfold specFinish. now destruct (d <? sketchSize). }
  induction r as [| a r' IHr]; intros q c d Hdis.
  - rewrite specMerge_nil_l. apply Hfin.
  - revert c d. induction q as [| b q' IHq]; intros c d.
    + rewrite specMerge_nil_r. apply Hfin.
    + rewrite specMerge_cons.
      destruct (d <? sketchSize); [| reflexivity].
      assert (Hab : hashKey w64 a <> hashKey w64 b).
      { apply Hdis; apply elem_of_cons; tauto. }
      rewrite !hashLessThan_keys.
      destruct (Z.ltb_spec (hashKey w64 a) (hashKey w64 b)).
      * apply IHr. intros x y Hx Hy. apply Hdis; [| exact Hy].
        apply elem_of_cons. tauto.
      * destruct (Z.ltb_spec (hashKey w64 b) (hashKey w64 a)); [| lia].
        apply IHq. intros x y Hx Hy. apply Hdis; [exact Hx |].
        apply elem_of_cons. tauto.
Qed.

(** With at least [sketchSize - denom] elements left in each list the
    merge stops on the capacity. *)
Lemma specMerge_full_lists (r : list hash_u) : forall q c d,
  d <= sketchSize -> sketchSize - d <= size r -> sketchSize - d <= size q ->
  snd (specMerge w64 sketchSize r q c d) = sketchSize.
Proof.
  assert (Hfin : forall r' q' c d, d <= sketchSize ->
            sketchSize - d <= size r' -> sketchSize - d <= size q' ->
            r' = [] \/ q' = [] ->
            snd (specFinish sketchSize r' q' c d) = sketchSize).
  { intros r' q' c d Hd Hr Hq Hnil. unfold specFinish.
    assert (d = sketchSize).
    { destruct Hnil as [-> | ->]; unfold size in *; simpl in *; lia. }
    destruct (Z.ltb_spec d sketchSize); simpl; lia. }
  induction r as [| a r' IHr]; intros q c d Hd Hr Hq.
  - rewrite specMerge_nil_l. apply Hfin; auto.
  - revert c d Hd Hr Hq.
    induction q as [| b q' IHq]; intros c d Hd Hr Hq.
    + rewrite specMerge_nil_r. apply Hfin; auto.
    + rewrite specMerge_cons.
      destruct (Z.ltb_spec d sketchSize); [| simpl; lia].
      unfold size in *. simpl length in *.
      destruct (hashLessThan a b w64);
        [| destruct (hashLessThan b a w64)].
      * apply IHr; simpl length; lia.
      * apply IHq; simpl length; lia.
      * apply IHr; lia.
Qed.
End MergeMoreFacts.

(** X9.  The merge is symmetric: swapping the two hash lists gives the
    same [(common, denom)], hence the same distance. *)
Theorem mergeCounts_symmetric (w64 : bool) (sketchSize : Z)
    (r q : list hash_u) :
  0 <= sketchSize -> size r + size q < 2 ^ 63 ->
  mergeCounts w64 sketchSize r q = mergeCounts w64 sketchSize q r.
Proof.
  intros Hsize Hlen.
  rewrite (mergeCounts_specCounts w64 sketchSize r q Hsize Hlen).
  rewrite (mergeCounts_specCounts w64 sketchSize q r Hsize ltac:(lia)).
  unfold specCounts. now rewrite specMerge_comm.
Qed.

Lemma mergeCounts_symmetric_witness :
  mergeCounts true 4 (map Sample.h [1; 2; 3; 4]) (map Sample.h [3; 5; 6; 7])
  = mergeCounts true 4 (map Sample.h [3; 5; 6; 7]) (map Sample.h [1; 2; 3; 4]).
Proof.
  apply (mergeCounts_symmetric true 4).
  - lia.
  - reflexivity.
Defined.

(** X10.  When each of the two lists holds at least [sketchSize] hashes
    (two full sketches), [denom] is exactly [sketchSize]. *)
Theorem mergeCounts_full_sketches (w64 : bool) (sketchSize : Z)
    (r q : list hash_u) :
  0 <= sketchSize -> size r + size q < 2 ^ 63 ->
  sketchSize <= size r -> sketchSize <= size q ->
  exists common,
    mergeCounts w64 sketchSize r q = Ok (common, sketchSize) /\
    0 <= common <= sketchSize.
Proof.
  intros Hsize Hlen Hr Hq.
  rewrite (mergeCounts_specCounts w64 sketchSize r q Hsize Hlen).
  pose proof (specMerge_full_lists w64 sketchSize r q 0 0
                ltac:(lia) ltac:(lia) ltac:(lia)) as Hd.
  pose proof (specMerge_bounds w64 sketchSize r q 0 0
                ltac:(lia) ltac:(lia)) as Hb.
  fold (specCounts w64 sketchSize r q) in Hd, Hb.
  destruct (specCounts w64 sketchSize r q) as [c0 d0].
  simpl in Hd, Hb. subst d0.
  exists c0. split; [reflexivity | lia].
Qed.

Lemma mergeCounts_full_sketches_witness :
  exists common,
    mergeCounts true 4 (map Sample.h [1; 2; 3; 4])
      (map Sample.h [3; 5; 6; 7]) = Ok (common, 4) /\
    0 <= common <= 4.
Proof.
  apply (mergeCounts_full_sketches true 4).
  - lia.
  - reflexivity.
  - vm_compute. discriminate.
  - vm_compute. discriminate.
Defined.

(** X11.  Two hash lists without a common hash value, not both empty,
    are never reported when the capacity is positive: the distance is
    exactly 1, the call returns [false] whatever the thresholds, and the
    pair record is left as it was. *)
Theorem compareSketches_disjoint `{Externals} (output : PairOutput.t)
    (refRef refQry : Reference) (sketchSize kmerSize : Z)
    (kmerSpace maxDistance maxPValue : float) :
  0 < sketchSize ->
  size (hashes (hashesSorted refRef)) + size (hashes (hashesSorted refQry))
    < 2 ^ 63 ->
  disjointKeys (get64 (hashesSorted refRef))
    (hashes (hashesSorted refRef)) (hashes (hashesSorted refQry)) ->
  hashes (hashesSorted refRef) <> [] \/ hashes (hashesSorted refQry) <> [] ->
  exists denom,
    mergeCounts (get64 (hashesSorted refRef)) sketchSize
      (hashes (hashesSorted refRef)) (hashes (hashesSorted refQry))
    = Ok (0, denom) /\
    0 < denom /\
    distanceOf 0 denom kmerSize = 1%float /\
    compareSketches output refRef refQry sketchSize kmerSize kmerSpace
      maxDistance maxPValue = Ok (false, output).
Proof.
  intros Hsize Hlen Hdis Hne.
  pose proof (compareSketches_unfold output refRef refQry sketchSize
                kmerSize kmerSpace maxDistance maxPValue
                ltac:(lia) Hlen) as Hcs.
  cbv zeta in Hcs.
  set (w := get64 (hashesSorted refRef)) in *.
  set (r := hashes (hashesSorted refRef)) in *.
  set (q := hashes (hashesSorted refQry)) in *.
  pose proof (specMerge_disjoint w sketchSize r q 0 0 Hdis) as Hc.
  pose proof (specMerge_denom_grows w sketchSize r q 0 0 Hsize Hne) as Hd.
  fold (specCounts w sketchSize r q) in Hc, Hd.
  rewrite (mergeCounts_specCounts w sketchSize r q ltac:(lia) Hlen).
  destruct (specCounts w sketchSize r q) as [c0 d0].
  simpl in Hc, Hd, Hcs. subst c0.
  assert (Hdist : distanceOf 0 d0 kmerSize = 1%float).
  { unfold distanceOf. destruct (Z.eqb_spec 0 d0); [lia | reflexivity]. }
  exists d0. split; [reflexivity |].
  split; [exact Hd |]. split; [exact Hdist |].
  rewrite Hcs, Hdist. unfold distanceRejects.
  change ((1 =? 1)%float) with true. now rewrite orb_true_r.
Qed.

Lemma compareSketches_disjoint_witness :
  @compareSketches Sample.routines PairOutput.indeterminate
    (Sample.reference "a" 12 [1; 2; 3; 4])
    (Sample.reference "d" 12 [5; 6; 7; 8]) 4 9 512000000000%float
    1%float 1%float = Ok (false, PairOutput.indeterminate).
Proof.
  destruct (@compareSketches_disjoint Sample.routines
              PairOutput.indeterminate
              (Sample.reference "a" 12 [1; 2; 3; 4])
              (Sample.reference "d" 12 [5; 6; 7; 8]) 4 9
              512000000000%float 1%float 1%float)
    as (denom & _ & _ & _ & Hcmp).
  - lia.
  - reflexivity.
  - intros a b Ha Hb. simpl in Ha, Hb.
    apply list_elem_of_In in Ha. apply list_elem_of_In in Hb.
    simpl in Ha, Hb.
    destruct Ha as [<- | [<- | [<- | [<- | []]]]];
      destruct Hb as [<- | [<- | [<- | [<- | []]]]]; discriminate.
  - left. discriminate.
  - exact Hcmp.
Defined.

Section SharedFacts.
Variables (w64 : bool) (sketchSize : Z).

Lemma sharedCount_nil_r r : sharedCount w64 r [] = 0.
Proof.
  unfold sharedCount. induction r as [| a r' IH]; [reflexivity |].
  rewrite filter_cons. destruct (decide (hashKey w64 a ∈ hashKey w64 <$> []))
    as [Hin | _]; [| exact IH].
  rewrite fmap_nil in Hin. now apply elem_of_nil in Hin.
Qed.

Lemma sharedCount_range r q : 0 <= sharedCount w64 r q <= size r.
Proof.
  unfold sharedCount, size.
  pose proof (length_filter
                (fun a => hashKey w64 a ∈ hashKey w64 <$> q) r). lia.
Qed.

Lemma sharedCount_cons_notin a r q :
  hashKey w64 a ∉ hashKey w64 <$> q ->
  sharedCount w64 (a :: r) q = sharedCount w64 r q.
Proof.
  intros Hn. unfold sharedCount. rewrite filter_cons.
  destruct (decide (hashKey w64 a ∈ hashKey w64 <$> q)); tauto.
Qed.

Lemma sharedCount_cons_in a r q :
  hashKey w64 a ∈ hashKey w64 <$> q ->
  sharedCount w64 (a :: r) q = 1 + sharedCount w64 r q.
Proof.
  intros Hin. unfold sharedCount, size. rewrite filter_cons.
  destruct (decide (hashKey w64 a ∈ hashKey w64 <$> q)); [| tauto].
  simpl length. lia.
Qed.

Lemma sharedCount_drop_head r b q :
  (forall x, x ∈ r -> hashKey w64 x <> hashKey w64 b) ->
  sharedCount w64 r (b :: q) = sharedCount w64 r q.
Proof.
  induction r as [| a r' IH]; intros Hne; [reflexivity |].
  assert (Ha : hashKey w64 a <> hashKey w64 b).
  { apply Hne. apply elem_of_cons. tauto. }
  assert (IH' : sharedCount w64 r' (b :: q) = sharedCount w64 r' q).
  { apply IH. intros x Hx. apply Hne. apply elem_of_cons. tauto. }
  destruct (decide (hashKey w64 a ∈ hashKey w64 <$> q)) as [Hin | Hn].
  - rewrite !sharedCount_cons_in, IH'; [reflexivity | exact Hin |].
    rewrite fmap_cons. apply elem_of_cons. tauto.
  - rewrite !sharedCount_cons_notin, IH'; [reflexivity | exact Hn |].
    rewrite fmap_cons, elem_of_cons. tauto.
Qed.

Lemma ascending_inv a r :
  ascending w64 (a :: r) ->
  ascending w64 r /\ forall x, x ∈ r -> hashKey w64 a < hashKey w64 x.
Proof.
  unfold ascending. rewrite fmap_cons. intros Hs.
  apply StronglySorted_inv in Hs. destruct Hs as [Hs Hall].
  split; [exact Hs |]. intros x Hx. rewrite Forall_forall in Hall.
  apply Hall. apply list_elem_of_fmap. now exists x.
Qed.

(** On ascending lists whose union fits the capacity the merge counts
    the shared hashes and the hashes of the union. *)
Lemma specMerge_exact (r : list hash_u) : forall q c d,
  ascending w64 r -> ascending w64 q ->
  d + size r + size q - sharedCount w64 r q <= sketchSize ->
  specMerge w64 sketchSize r q c d
  = (c + sharedCount w64 r q, d + size r + size q - sharedCount w64 r q).
Proof.
  induction r as [| a r' IHr]; intros q c d Hr Hq Hfit.
  - rewrite specMerge_nil_l. unfold specFinish.
    change (sharedCount w64 [] q) with 0 in *. change (size []) with 0 in *.
    assert (0 <= size q) by (unfold size; lia).
    destruct (Z.ltb_spec d sketchSize); f_equal; lia.
  - revert c d Hfit. induction q as [| b q' IHq]; intros c d Hfit.
    + rewrite specMerge_nil_r. unfold specFinish.
      rewrite sharedCount_nil_r in *. change (size []) with 0 in *.
      assert (0 <= size (a :: r')) by (unfold size; lia).
      destruct (Z.ltb_spec d sketchSize); f_equal; lia.
    + destruct (ascending_inv a r' Hr) as [Hr' Har].
      destruct (ascending_inv b q' Hq) as [Hq' Hbq].
      pose proof (sharedCount_range (a :: r') (b :: q')) as Hrange.
      assert (Hsz : size (a :: r') = 1 + size r' /\
                    size (b :: q') = 1 + size q' /\
                    0 <= size r' /\ 0 <= size q').
      { unfold size. simpl length. lia. }
      destruct Hsz as (Hsa & Hsb & Hr0 & Hq0).
      rewrite specMerge_cons.
      destruct (Z.ltb_spec d sketchSize); [| lia].
      rewrite !hashLessThan_keys.
      destruct (Z.ltb_spec (hashKey w64 a) (hashKey w64 b)) as [Hlt | Hge].
      * (* [a] is below every hash of the query list *)
        assert (Hn : hashKey w64 a ∉ hashKey w64 <$> (b :: q')).
        { rewrite fmap_cons, elem_of_cons. intros [He | Hin]; [lia |].
          apply list_elem_of_fmap in Hin. destruct Hin as (y & Hy & Hin).
          specialize (Hbq y Hin). lia. }
        rewrite (sharedCount_cons_notin a r' (b :: q') Hn) in *.
        rewrite IHr by (assumption || lia). f_equal; lia.
      * destruct (Z.ltb_spec (hashKey w64 b) (hashKey w64 a)) as [Hlt | Heq].
        -- (* [b] is below every hash of the reference list *)
           assert (Hd : sharedCount w64 (a :: r') (b :: q')
                        = sharedCount w64 (a :: r') q').
           { apply sharedCount_drop_head. intros x Hx.
             apply elem_of_cons in Hx. destruct Hx as [-> | Hx]; [lia |].
             specialize (Har x Hx). lia. }
           rewrite Hd in *.
           rewrite IHq by (assumption || lia). f_equal; lia.
        -- (* the same hash heads both lists *)
           assert (Hab : hashKey w64 a = hashKey w64 b) by lia.
           assert (Hd : sharedCount w64 (a :: r') (b :: q')
                        = 1 + sharedCount w64 r' q').
           { rewrite sharedCount_cons_in.
             - f_equal. apply sharedCount_drop_head. intros x Hx.
               specialize (Har x Hx). lia.
             - rewrite fmap_cons, elem_of_cons. tauto. }
           rewrite Hd in *.
           rewrite IHr by (assumption || lia). f_equal; lia.
Qed.
End SharedFacts.

(** X12.  For two ascending hash lists whose union has at most
    [sketchSize] elements the merge is exact: [common] is the number of
    shared hash values and [denom] the number of hash values in the
    union. *)
Theorem mergeCounts_exact (w64 : bool) (sketchSize : Z) (r q : list hash_u) :
  size r + size q < 2 ^ 63 ->
  ascending w64 r -> ascending w64 q ->
  size r + size q - sharedCount w64 r q <= sketchSize ->
  mergeCounts w64 sketchSize r q
  = Ok (sharedCount w64 r q, size r + size q - sharedCount w64 r q).
Proof.
  intros Hlen Hr Hq Hfit.
  pose proof (sharedCount_range w64 r q) as Hrange.
  assert (0 <= size q) by (unfold size; lia).
  rewrite (mergeCounts_specCounts w64 sketchSize r q ltac:(lia) Hlen).
  unfold specCounts. rewrite specMerge_exact by (assumption || lia).
  reflexivity.
Qed.

Lemma mergeCounts_exact_witness :
  mergeCounts true 7 (map Sample.h [1; 2; 3; 4]) (map Sample.h [3; 5; 6; 7])
  = Ok (1, 7).
Proof.
  pose proof (mergeCounts_exact true 7 (map Sample.h [1; 2; 3; 4])
                (map Sample.h [3; 5; 6; 7])) as Hm.
  rewrite Hm.
  - reflexivity.
  - reflexivity.
  - unfold ascending. simpl. repeat constructor.
  - unfold ascending. simpl. repeat constructor.
  - vm_compute. discriminate.
Defined.

(** ** More on [search] *)

Section ReportFacts.
Context `{Externals}.
Variable input : PairwiseInput.

Local Abbreviation sk := (in_sketch input).
Local Abbreviation q := (in_index input).

(** Target [i] is accepted with record [o]. *)
Local Abbreviation acceptedAs i o :=
  (exists rq ri,
    getReference sk q = Ok rq /\ getReference sk i = Ok ri /\
    compareSketches PairOutput.indeterminate rq ri (minHashesPerWindow sk)
      (kmerSize sk) (kmerSpace sk) (in_maxDistance input)
      (in_maxPValue input) = Ok (true, o)).

(** What a finished scoring has appended. *)
Lemma scoreTargets_elem targets : forall acc ps,
  scoreTargets input targets acc = Ok ps ->
  forall p, p ∈ ps
            <-> p ∈ acc \/
                exists i o, i ∈ targets /\ acceptedAs i o /\
                            p = PairOutput.set_index o i.
Proof.
  induction targets as [| i rest IH]; intros acc ps Hrun p.
  - simpl in Hrun. injection Hrun as <-. split; [tauto |].
    intros [? | (i & o & Hi & _)]; [assumption |].
    now apply elem_of_nil in Hi.
  - cbn [scoreTargets] in Hrun.
    destruct (getReference sk q) as [rq | | |] eqn:Hrq;
      cbn [bind] in Hrun; try discriminate Hrun.
    destruct (getReference sk i) as [ri | | |] eqn:Hri;
      cbn [bind] in Hrun; try discriminate Hrun.
    destruct (compareSketches PairOutput.indeterminate rq ri
                (minHashesPerWindow sk) (kmerSize sk) (kmerSpace sk)
                (in_maxDistance input) (in_maxPValue input))
      as [[b o] | | |] eqn:Hcmp; cbn [bind fst snd] in Hrun;
      try discriminate Hrun.
    rewrite (IH _ ps Hrun p). split.
    + intros [Hacc | (i' & o' & Hi' & Ha & Hp)].
      * destruct b; [| tauto].
        apply elem_of_app in Hacc. destruct Hacc as [? | Hp]; [tauto |].
        apply list_elem_of_singleton in Hp. right. exists i, o.
        split; [apply elem_of_cons; tauto |]. split; [| exact Hp].
        exists rq, ri. tauto.
      * right. exists i', o'. split; [apply elem_of_cons; tauto | tauto].
    + intros [Hacc | (i' & o' & Hi' & Ha & Hp)].
      * left. destruct b; [apply elem_of_app |]; tauto.
      * apply elem_of_cons in Hi'. destruct Hi' as [-> | Hi'].
        -- left. destruct Ha as (rq' & ri' & Hrq' & Hri' & Hcmp').
           injection Hrq' as <-.
           rewrite Hri in Hri'. injection Hri' as <-.
           rewrite Hcmp in Hcmp'. injection Hcmp' as -> ->.
           apply elem_of_app. right. now apply list_elem_of_singleton.
        -- right. exists i', o'. tauto.
Qed.

Hypothesis Hq : 0 <= q < getReferenceCount sk.
Hypothesis Hwf : wfSketch sk.
Hypothesis Ht : wfTable (in_hashTable input).

(** The result of [search]: the targets that [compareSketches] accepts,
    each under its index. *)
Lemma search_pairs_spec :
  exists out targets,
    search input = Ok out /\ searchTargets input = Ok targets /\
    forall p, p ∈ pairs out
              <-> exists i o, i ∈ targets /\ acceptedAs i o /\
                              p = PairOutput.set_index o i.
Proof.
  destruct (searchTargets_spec input Hq) as (targets & Hrun & Hs & Hm).
  destruct (scoreTargets_sorted input Hq Hwf targets [] Hs)
    as (ps & Hscore & _).
  - intros x Hx. apply Hm in Hx. destruct Hx as [Hlt (h & _ & Hx)].
    apply (wfTable_listFor _ _ _ Ht) in Hx. lia.
  - constructor.
  - intros a x Ha. now apply elem_of_nil in Ha.
  - exists {| out_sketch := sk; out_index := q; pairs := ps |}, targets.
    split; [| split; [exact Hrun |]].
    + unfold search. rewrite Hrun. cbn [bind]. rewrite Hscore. reflexivity.
    + intros p. cbn [pairs].
      rewrite (scoreTargets_elem targets [] ps Hscore p), elem_of_nil.
      tauto.
Qed.
End ReportFacts.

(** X13.  [search] reports exactly the candidates that [compareSketches]
    accepts against the query: every reported pair is the record of an
    accepted candidate with its index filled in, and every accepted
    candidate is reported. *)
Theorem search_reports_accepted `{Externals} (input : PairwiseInput) :
  0 <= in_index input < getReferenceCount (in_sketch input) ->
  wfSketch (in_sketch input) ->
  wfTable (in_hashTable input) ->
  exists out targets rq,
    search input = Ok out /\
    searchTargets input = Ok targets /\
    getReference (in_sketch input) (in_index input) = Ok rq /\
    forall p, p ∈ pairs out
              <-> exists i ri o,
                    i ∈ targets /\
                    getReference (in_sketch input) i = Ok ri /\
                    compareSketches PairOutput.indeterminate rq ri
                      (minHashesPerWindow (in_sketch input))
                      (kmerSize (in_sketch input))
                      (kmerSpace (in_sketch input))
                      (in_maxDistance input) (in_maxPValue input)
                    = Ok (true, o) /\
                    p = PairOutput.set_index o i.
Proof.
  intros Hq Hwf Ht.
  destruct (search_pairs_spec input Hq Hwf Ht)
    as (out & targets & Hrun & Hst & Hp).
  destruct (getReference_in_range _ _ Hq) as [rq Hrq].
  exists out, targets, rq.
  split; [exact Hrun |]. split; [exact Hst |]. split; [exact Hrq |].
  intros p. rewrite Hp. split.
  - intros (i & o & Hi & (rq' & ri & Hrq' & Hri & Hcmp) & Heq).
    rewrite Hrq in Hrq'. injection Hrq' as <-.
    exists i, ri, o. tauto.
  - intros (i & ri & o & Hi & Hri & Hcmp & Heq).
    exists i, o. split; [exact Hi |]. split; [| exact Heq].
    exists rq, ri. tauto.
Qed.

Lemma search_reports_accepted_witness :
  exists out targets,
    @search Sample.routines Sample.workItem = Ok out /\
    searchTargets Sample.workItem = Ok targets.
Proof.
  destruct (@search_reports_accepted Sample.routines Sample.workItem)
    as (out & targets & rq & Hrun & Hst & _).
  - vm_compute. split; [discriminate | reflexivity].
  - split; [vm_compute; discriminate |].
    repeat constructor; vm_compute; reflexivity.
  - unfold wfTable. apply (bool_decide_unpack _). vm_compute. exact I.
  - exists out, targets. split; assumption.
Defined.

(** X14.  Every pair that [search] reports lies below the query, has
    [0 <= numer <= denom <= sketchSize], a distance that is neither above
    [maxDistance] nor equal to 1, and a p-value that is at most
    [maxPValue]. *)
Theorem search_pairs_meet_thresholds `{Externals} (input : PairwiseInput) :
  0 <= in_index input < getReferenceCount (in_sketch input) ->
  wfSketch (in_sketch input) ->
  wfTable (in_hashTable input) ->
  exists out,
    search input = Ok out /\
    forall p, p ∈ pairs out ->
      0 <= PairOutput.index p < in_index input /\
      0 <= PairOutput.numer p <= PairOutput.denom p /\
      PairOutput.denom p <= minHashesPerWindow (in_sketch input) /\
      (in_maxDistance input <? PairOutput.distance p)%float = false /\
      (PairOutput.distance p =? 1)%float = false /\
      (PairOutput.pValue p <=? in_maxPValue input)%float = true.
Proof.
  intros Hq Hwf Ht.
  destruct (search_pairs_spec input Hq Hwf Ht)
    as (out & targets & Hrun & Hst & Hp).
  destruct (searchTargets_spec input Hq) as (targets' & Hst' & _ & Hm).
  rewrite Hst in Hst'. injection Hst' as <-.
  exists out. split; [exact Hrun |].
  intros p Hin. apply Hp in Hin.
  destruct Hin as (i & o & Hi & (rq & ri & Hrq & Hri & Hcmp) & ->).
  apply Hm in Hi. destruct Hi as [Hlt (h & _ & Hx)].
  apply (wfTable_listFor _ _ _ Ht) in Hx.
  pose proof (getReference_fits input Hwf _ rq Hrq) as Hfq.
  pose proof (getReference_fits input Hwf _ ri Hri) as Hfi.
  rewrite compareSketches_unfold in Hcmp by (apply Hwf || lia).
  cbv zeta in Hcmp.
  pose proof (specMerge_bounds (get64 (hashesSorted rq))
                (minHashesPerWindow (in_sketch input))
                (hashes (hashesSorted rq)) (hashes (hashesSorted ri)) 0 0
                ltac:(lia) (proj1 Hwf)) as Hb.
  fold (specCounts (get64 (hashesSorted rq))
          (minHashesPerWindow (in_sketch input))
          (hashes (hashesSorted rq)) (hashes (hashesSorted ri))) in Hb.
  destruct (distanceRejects _ _) eqn:Hrej; [discriminate Hcmp |].
  injection Hcmp as Hle <-. cbn.
  unfold distanceRejects in Hrej. apply orb_false_iff in Hrej.
  destruct Hrej as [Hgt Hone].
  repeat split; try lia; assumption.
Qed.

Lemma search_pairs_meet_thresholds_witness :
  exists out,
    @search Sample.routines Sample.workItem = Ok out /\
    forall p, p ∈ pairs out ->
      0 <= PairOutput.index p < 2 /\
      0 <= PairOutput.numer p <= PairOutput.denom p /\
      PairOutput.denom p <= 4 /\
      (1 <? PairOutput.distance p)%float = false /\
      (PairOutput.distance p =? 1)%float = false /\
      (PairOutput.pValue p <=? 1)%float = true.
Proof.
  apply (@search_pairs_meet_thresholds Sample.routines Sample.workItem).
  - vm_compute. split; [discriminate | reflexivity].
  - split; [vm_compute; discriminate |].
    repeat constructor; vm_compute; reflexivity.
  - unfold wfTable. apply (bool_decide_unpack _). vm_compute. exact I.
Defined.

(** ** More on the writer *)

Lemma nameOf_Ok (sk : Sketch) (i : Z) (r : Reference) :
  getReference sk i = Ok r -> nameOf sk i = ref_name r.
Proof. intros H. unfold nameOf. now rewrite H. Qed.

Lemma tabCount_app (a b : list token) :
  tabCount (a ++ b) = tabCount a + tabCount b.
Proof.
  unfold tabCount, size. rewrite List.filter_app, length_app. lia.
Qed.

Lemma tabCount_replicate (n : nat) : tabCount (replicate n Tab) = Z.of_nat n.
Proof.
  unfold tabCount, size. induction n as [| n IH]; [reflexivity |].
  simpl replicate. simpl List.filter. simpl length. lia.
Qed.

Section WriterFacts.
Variables (sk : Sketch) (i : Z).

(** The loop over the pairs in tuple mode, from any state. *)
Lemma writePairs_tuple (ps : list PairOutput.t) : forall out j,
  0 <= i < getReferenceCount sk ->
  Forall (fun p => 0 <= PairOutput.index p < getReferenceCount sk) ps ->
  writePairs false sk i (out, j) ps
  = Ok (out ++ flat_map (tupleLine sk i) ps, j).
Proof.
  induction ps as [| p rest IH]; intros out j Hi Hall.
  - simpl. now rewrite app_nil_r.
  - apply Forall_cons in Hall. destruct Hall as [Hp Hall].
    destruct (getReference_in_range sk i Hi) as [rq Hrq].
    destruct (getReference_in_range sk _ Hp) as [rp Hrp].
    cbn [writePairs writePair]. rewrite Hrq, Hrp. cbn [bind].
    rewrite IH by assumption. cbn [flat_map]. unfold tupleLine at 2.
    rewrite (nameOf_Ok sk i rq Hrq), (nameOf_Ok sk _ rp Hrp).
    now rewrite <- app_assoc.
Qed.

(** The loop over the pairs in table mode, from any state. *)
Lemma writePairs_table (ps : list PairOutput.t) : forall out j,
  exists j', writePairs true sk i (out, j) ps
             = Ok (out ++ tableCells j ps, j').
Proof.
  induction ps as [| p rest IH]; intros out j.
  - exists j. simpl. now rewrite app_nil_r.
  - cbn [writePairs writePair bind].
    destruct (IH (out ++ replicate (Z.to_nat (PairOutput.index p - j)) Tab
                      ++ [Tab; Dbl (PairOutput.distance p)])
                 (Z.max j (PairOutput.index p))) as [j' Hrun].
    exists j'. rewrite Hrun. cbn [tableCells].
    now rewrite <- !app_assoc.
Qed.
End WriterFacts.

(** Where the distance of the [k]-th pair sits among the cells. *)
Lemma tableCells_position (ps : list PairOutput.t) : forall j k p,
  StronglySorted Z.lt (PairOutput.index <$> ps) ->
  Forall (fun p => j <= PairOutput.index p) ps ->
  ps !! k = Some p ->
  exists pre post,
    tableCells j ps = pre ++ Dbl (PairOutput.distance p) :: post /\
    tabCount pre = PairOutput.index p - j + Z.of_nat k + 1.
Proof.
  induction ps as [| p0 rest IH]; intros j k p Hs Hall Hk;
    [discriminate Hk |].
  apply Forall_cons in Hall. destruct Hall as [Hj Hall].
  rewrite fmap_cons in Hs. apply StronglySorted_inv in Hs.
  destruct Hs as [Hs Hlt].
  destruct k as [| k].
  - injection Hk as <-.
    exists (replicate (Z.to_nat (PairOutput.index p0 - j)) Tab ++ [Tab]),
           (tableCells (Z.max j (PairOutput.index p0)) rest).
    split.
    + cbn [tableCells]. now rewrite <- !app_assoc.
    + rewrite tabCount_app, tabCount_replicate.
      change (tabCount [Tab]) with 1. lia.
  - cbn [lookup list_lookup] in Hk.
    destruct (IH (Z.max j (PairOutput.index p0)) k p Hs) as
      (pre & post & Heq & Hcount).
    + apply Forall_forall. intros x Hx.
      rewrite Forall_forall in Hlt.
      assert (PairOutput.index p0 < PairOutput.index x).
      { apply Hlt. apply list_elem_of_fmap. now exists x. }
      lia.
    + exact Hk.
    + exists (replicate (Z.to_nat (PairOutput.index p0 - j)) Tab
              ++ [Tab; Dbl (PairOutput.distance p0)] ++ pre), post.
      split.
      * cbn [tableCells]. rewrite Heq. now rewrite <- !app_assoc.
      * rewrite !tabCount_app, tabCount_replicate, Hcount.
        change (tabCount [Tab; Dbl (PairOutput.distance p0)]) with 1.
        lia.
Qed.

(** X15.  In tuple mode [writeOutput] writes one line per pair, in the
    order of the pairs: query name, reference name, distance, p-value and
    [numer/denom]; a result without pairs writes nothing. *)
Theorem writeOutput_tuple_stream (output : PairwiseOutput) :
  0 <= out_index output < getReferenceCount (out_sketch output) ->
  Forall (fun p => 0 <= PairOutput.index p
                   < getReferenceCount (out_sketch output))
         (pairs output) ->
  writeOutput output false
  = Ok (flat_map (tupleLine (out_sketch output) (out_index output))
          (pairs output)) /\
  (pairs output = [] -> writeOutput output false = Ok []).
Proof.
  intros Hi Hall.
  assert (Hw : writeOutput output false
               = Ok (flat_map (tupleLine (out_sketch output)
                                 (out_index output)) (pairs output))).
  { unfold writeOutput. cbn [bind].
    rewrite (writePairs_tuple _ _ (pairs output) [] 0 Hi Hall).
    cbn [bind fst]. now rewrite app_nil_r. }
  split; [exact Hw |]. intros Hnil. rewrite Hw, Hnil. reflexivity.
Qed.

Lemma writeOutput_tuple_stream_witness :
  writeOutput Sample.result1 false
  = Ok (flat_map (tupleLine Sample.twoRefs 1) [Sample.accepted]).
Proof.
  apply (writeOutput_tuple_stream Sample.result1).
  - vm_compute. split; [discriminate | reflexivity].
  - repeat constructor; vm_compute; discriminate || reflexivity.
Defined.

(** X16.  In table mode the row of a query is its name, a tab, the cells
    and the end of line; with the pairs in ascending index order the
    distance of the [k]-th pair (from 0) is preceded by
    [index + k + 2] tabs. *)
Theorem writeOutput_table_columns (output : PairwiseOutput) (r : Reference) :
  getReference (out_sketch output) (out_index output) = Ok r ->
  StronglySorted Z.lt (PairOutput.index <$> pairs output) ->
  Forall (fun p => 0 <= PairOutput.index p) (pairs output) ->
  writeOutput output true
  = Ok ([Str (ref_name r); Tab] ++ tableCells 0 (pairs output) ++ [Endl]) /\
  forall k p, pairs output !! k = Some p ->
    exists pre post,
      [Str (ref_name r); Tab] ++ tableCells 0 (pairs output) ++ [Endl]
      = pre ++ Dbl (PairOutput.distance p) :: post /\
      tabCount pre = PairOutput.index p + Z.of_nat k + 2.
Proof.
  intros Hr Hs Hall. split.
  - unfold writeOutput. rewrite Hr. cbn [bind].
    destruct (writePairs_table (out_sketch output) (out_index output)
                (pairs output) [Str (ref_name r); Tab] 0) as [j' Hrun].
    rewrite Hrun. cbn [bind fst]. now rewrite <- app_assoc.
  - intros k p Hk.
    destruct (tableCells_position (pairs output) 0 k p Hs Hall Hk)
      as (pre & post & Heq & Hcount).
    exists ([Str (ref_name r); Tab] ++ pre), (post ++ [Endl]).
    split.
    + rewrite Heq. now rewrite <- !app_assoc.
    + rewrite tabCount_app, Hcount.
      change (tabCount [Str (ref_name r); Tab]) with 1. lia.
Qed.

Lemma writeOutput_table_columns_witness :
  writeOutput Sample.result1 true
  = Ok ([Str "b"; Tab] ++ tableCells 0 [Sample.accepted] ++ [Endl]).
Proof.
  destruct (writeOutput_table_columns Sample.result1
              (Sample.reference "b" 12 [1; 2; 3; 4])) as [Hw _].
  - reflexivity.
  - repeat constructor.
  - repeat constructor. vm_compute. discriminate.
  - exact Hw.
Defined.

Lemma to_int_succ (i : Z) : 0 <= i -> i + 1 < two31 -> to_int (i + 1) = i + 1.
Proof. intros H0 H1. apply to_int_small. lia. Qed.

(** The loop of the header below the reach of its counter. *)
Lemma headerLoop_spec (sk : Sketch) (n : nat) : forall i out,
  0 <= i -> i + Z.of_nat n = getReferenceCount sk ->
  getReferenceCount sk < two31 ->
  headerLoop n sk i out
  = Ok (out ++ flat_map (fun r => [Tab; Str (ref_name r)])
                  (drop (Z.to_nat i) (references sk))).
Proof.
  induction n as [| n IH]; intros i out H0 Hn Hc.
  - simpl. rewrite of_int_small by lia.
    destruct (Z.ltb_spec i (getReferenceCount sk)); [lia |].
    rewrite drop_ge by (unfold getReferenceCount, size in *; lia).
    simpl. now rewrite app_nil_r.
  - cbn [headerLoop]. rewrite of_int_small by lia.
    destruct (Z.ltb_spec i (getReferenceCount sk)); [| lia].
    destruct (at_drop (references sk) i) as (r & Hr & Hd).
    { unfold getReferenceCount in *. lia. }
    unfold getReference. rewrite Hr. cbn [bind].
    rewrite to_int_succ by lia.
    rewrite IH by lia. rewrite Hd. cbn [flat_map].
    now rewrite <- !app_assoc.
Qed.

Lemma headerCols_position (refs : list Reference) : forall (n : nat) r,
  refs !! n = Some r ->
  exists pre post,
    flat_map (fun r => [Tab; Str (ref_name r)]) refs
    = pre ++ Str (ref_name r) :: post /\
    tabCount pre = Z.of_nat n + 1.
Proof.
  induction refs as [| r0 rest IH]; intros n r Hn; [discriminate Hn |].
  destruct n as [| n].
  - injection Hn as <-.
    exists [Tab], (flat_map (fun r => [Tab; Str (ref_name r)]) rest).
    split; reflexivity.
  - cbn [lookup list_lookup] in Hn.
    destruct (IH n r Hn) as (pre & post & Heq & Hcount).
    exists ([Tab; Str (ref_name r0)] ++ pre), post. split.
    + cbn [flat_map]. rewrite Heq. reflexivity.
    + rewrite tabCount_app, Hcount.
      change (tabCount [Tab; Str (ref_name r0)]) with 1. lia.
Qed.

Lemma headerCols_tabs (refs : list Reference) :
  tabCount (flat_map (fun r => [Tab; Str (ref_name r)]) refs) = size refs.
Proof.
  induction refs as [| r0 rest IH]; [reflexivity |].
  cbn [flat_map]. rewrite tabCount_app, IH.
  change (tabCount [Tab; Str (ref_name r0)]) with 1.
  unfold size. simpl length. lia.
Qed.

(** X17.  For fewer than 2^31 references, the reach of the [int] loop
    counter, the header is written, it holds one tab per reference, and
    the name of reference [n] is preceded by [n + 1] tabs. *)
Theorem tableHeader_columns (sk : Sketch) :
  getReferenceCount sk < two31 ->
  exists hdr,
    tableHeader sk = Ok hdr /\
    tabCount hdr = getReferenceCount sk /\
    forall (n : nat) r, references sk !! n = Some r ->
      exists pre post,
        hdr = pre ++ Str (ref_name r) :: post /\
        tabCount pre = Z.of_nat n + 1.
Proof.
  intros Hc.
  exists ([Str "#query"]
          ++ flat_map (fun r => [Tab; Str (ref_name r)]) (references sk)
          ++ [Endl]).
  split; [| split].
  - unfold tableHeader.
    rewrite (headerLoop_spec sk (List.length (references sk)) 0
               [Str "#query"]) by (unfold getReferenceCount, size in *; lia).
    cbn [bind]. change (Z.to_nat 0) with 0%nat. rewrite drop_0.
    now rewrite <- app_assoc.
  - rewrite !tabCount_app, headerCols_tabs.
    change (tabCount [Str "#query"]) with 0.
    change (tabCount [Endl]) with 0.
    unfold getReferenceCount. lia.
  - intros n r Hn.
    destruct (headerCols_position (references sk) n r Hn)
      as (pre & post & Heq & Hcount).
    exists (Str "#query" :: pre), (post ++ [Endl]). split.
    + rewrite Heq. cbn [app]. now rewrite <- app_assoc.
    + change (Str "#query" :: pre) with ([Str "#query"] ++ pre).
      rewrite tabCount_app, Hcount. reflexivity.
Qed.

Lemma tableHeader_columns_witness :
  exists hdr,
    tableHeader Sample.twoRefs = Ok hdr /\
    tabCount hdr = 2.
Proof.
  destruct (tableHeader_columns Sample.twoRefs) as (hdr & Hh & Ht & _).
  - reflexivity.
  - exists hdr. split; [exact Hh | exact Ht].
Defined.

(** ** The scan for oversized sequences *)

Section WarnFacts.
Variables (lengthThreshold : float) (lengthMax0 : Z) (name0 : string).

Local Abbreviation long :=
  (filter (fun r => tooLong lengthThreshold (ref_length r) = true)).

(** What holds after the references [l] have been scanned. *)
Lemma warnScan_prefix (l : list Reference) :
  size l < two31 ->
  let st := foldl (warnStep lengthThreshold)
                  (warnInit lengthMax0 name0) l in
  warningCount st = size (long l) /\
  (long l = [] -> st = warnInit lengthMax0 name0) /\
  (long l <> [] ->
     (forall r, r ∈ long l -> ref_length r <= lengthMax st) /\
     exists r, r ∈ long l /\ ref_length r = lengthMax st /\
               ref_name r = lengthMaxName st).
Proof.
  induction l as [| x l IH] using rev_ind; intros Hlen st.
  - subst st. simpl. split; [reflexivity |]. split; [reflexivity |].
    intros Hne. contradiction.
  - assert (Hl : size l < two31 /\ size l + 1 < two31).
    { unfold size in *. rewrite length_app in Hlen. simpl in Hlen. lia. }
    destruct (IH (proj1 Hl)) as (Hc & Hnone & Hsome). clear IH.
    subst st. rewrite foldl_app. cbn [foldl].
    set (st0 := foldl (warnStep lengthThreshold)
                  (warnInit lengthMax0 name0) l) in *.
    rewrite filter_app. unfold warnStep.
    assert (Hcount : 0 <= size (long l) <= size l).
    { unfold size. pose proof (length_filter
        (fun r => tooLong lengthThreshold (ref_length r) = true) l). lia. }
    destruct (tooLong lengthThreshold (ref_length x)) eqn:Hx.
    + rewrite (filter_cons_True _ x []) by exact Hx.
      change (filter _ (@nil Reference)) with (@nil Reference).
      assert (Hsz : size (long l ++ [x]) = size (long l) + 1).
      { unfold size. rewrite length_app. simpl. lia. }
      split; [| split].
      * cbn [warningCount]. rewrite Hsz.
        destruct ((warningCount st0 =? 0) || (lengthMax st0 <? ref_length x));
          cbn [warningCount]; rewrite to_int_small; unfold two31 in *; lia.
      * intros Hnil. apply app_eq_nil in Hnil. destruct Hnil as [_ Hnil].
        discriminate Hnil.
      * intros _.
        destruct (Z.eqb_spec (warningCount st0) 0) as [Hz | Hnz].
        -- assert (Hempty : long l = []).
           { apply length_zero_iff_nil. unfold size in *. lia. }
           cbn [orb lengthMax lengthMaxName]. rewrite Hempty. split.
           ++ intros r Hr. apply list_elem_of_singleton in Hr. subst. lia.
           ++ exists x. split; [apply list_elem_of_singleton |]; auto.
        -- assert (Hne : long l <> []).
           { intros He. rewrite He in Hc. apply Hnz. exact Hc. }
           destruct (Hsome Hne) as [Hmax (r0 & Hr0 & Hlen0 & Hname0)].
           cbn [orb].
           destruct (Z.ltb_spec (lengthMax st0) (ref_length x)) as [Hlt | Hge];
             cbn [lengthMax lengthMaxName].
           ++ split.
              ** intros r Hr. apply elem_of_app in Hr.
                 destruct Hr as [Hr | Hr].
                 --- specialize (Hmax r Hr). lia.
                 --- apply list_elem_of_singleton in Hr. subst. lia.
              ** exists x. split; [| split; reflexivity].
                 apply elem_of_app. right. now apply list_elem_of_singleton.
           ++ split.
              ** intros r Hr. apply elem_of_app in Hr.
                 destruct Hr as [Hr | Hr]; [now apply Hmax |].
                 apply list_elem_of_singleton in Hr. subst. lia.
              ** exists r0. split; [| split; assumption].
                 apply elem_of_app. now left.
    + rewrite (filter_cons_False _ x []) by (rewrite Hx; discriminate).
      change (filter _ (@nil Reference)) with (@nil Reference).
      rewrite app_nil_r. split; [exact Hc |]. split; [exact Hnone |].
      exact Hsome.
Qed.
End WarnFacts.

(** X18.  The scan counts the sequences longer than the threshold; when
    there is none it leaves [lengthMax] and the name unassigned, otherwise
    [lengthMax] is the greatest length among them and the name is that of
    a sequence of this length. *)
Theorem warnScan_max (lengthThreshold : float) (sk : Sketch)
    (lengthMax0 : Z) (name0 : string) :
  getReferenceCount sk < two31 ->
  let st := warnScan lengthThreshold sk lengthMax0 name0 in
  warningCount st = size (offenders lengthThreshold sk) /\
  (offenders lengthThreshold sk = [] ->
     st = warnInit lengthMax0 name0) /\
  (offenders lengthThreshold sk <> [] ->
     (forall r, r ∈ offenders lengthThreshold sk ->
        ref_length r <= lengthMax st) /\
     exists r, r ∈ offenders lengthThreshold sk /\
               ref_length r = lengthMax st /\
               ref_name r = lengthMaxName st).
Proof.
  intros Hlen. unfold warnScan, offenders.
  apply (warnScan_prefix lengthThreshold lengthMax0 name0
           (references sk) Hlen).
Qed.

Lemma warnScan_max_witness :
  warningCount (warnScan 10%float Sample.collection 0 EmptyString)
  = size (offenders 10%float Sample.collection).
Proof.
  destruct (warnScan_max 10%float Sample.collection 0 EmptyString)
    as [Hc _].
  - reflexivity.
  - exact Hc.
Defined.
